(** * Iron Dome: the file-state anomaly engine of [irondome.py]

    A shallow embedding of [src/irondome.py] and the properties of its
    entropy meter, of its event handlers and of its disk probe.

    Conventions of the model.
    - Python [float]s are idealised as real numbers ([R]): [math.log] is
      [ln], [abs] is [Rabs] and [sum] adds from the left starting at 0.
      Rounding of IEEE doubles is outside the model.
    - The operating system and the third-party libraries ([os], [open],
      [filetype], [fnmatch]) are an oracle, the record [World]; each call
      that may raise in Python returns a [result]. One handler runs in one
      world, and each event of a sequence comes with its own: the calls
      answer independently of each other, so a file can pass
      [os.path.exists] and still fail to open.
    - [self.file_infos] is a finite map from paths to [FileInfo]s, and the
      log sink is the list of the records written so far. *)

From Stdlib Require Import Reals Lra Lia List String ZArith.
From Stdlib Require Import DecimalString DecimalN Permutation.
From Stdlib.Strings Require Import Byte.
From Equations Require Import Equations.
From stdpp Require Import base option gmap strings.
Import ListNotations.

Open Scope string_scope.
Open Scope list_scope.

(** ** Exceptions and fallible results *)

Inductive exn : Set :=
  | OSError            (* os.stat, open, file.read, filetype.guess *)
  | ZeroDivisionError  (* count / file_size *)
  | ValueError         (* math.log of a non-positive number *)
  | KeyError.          (* self.file_infos[filepath] on a missing key *)

Inductive result (A : Type) : Type :=
  | Ok (a : A)
  | Raise (e : exn).
Arguments Ok {A} a.
Arguments Raise {A} e.

Definition result_bind {A B} (r : result A) (k : A -> result B) : result B :=
  match r with
  | Ok a => k a
  | Raise e => Raise e
  end.

Notation "'try' x <- r ; k" := (result_bind r (fun x => k))
  (at level 10, x name, r at level 100, k at level 200).

(** A list comprehension whose body may raise: the first exception ends it. *)
Fixpoint comprehension {A B} (f : A -> result B) (l : list A) : result (list B) :=
  match l with
  | [] => Ok []
  | a :: l' =>
      try b <- f a;
      try bs <- comprehension f l';
      Ok (b :: bs)
  end.

(** ** The world the program observes *)

Record World : Type := {
  (* os.path.exists(path) *)
  os_path_exists : string -> bool;
  (* os.stat(path).st_size *)
  os_stat_st_size : string -> result nat;
  (* open(path, 'rb'): the bytes the successive file.read calls deliver *)
  open_rb : string -> result (list byte);
  (* filetype.guess(path): None, or a type with its .mime *)
  filetype_guess : string -> result (option string);
  (* os.walk(top): the (root_path, folders, files) triples, in order *)
  os_walk : string -> list (string * list string * list string);
  (* fnmatch.fnmatch(name, pattern) *)
  fnmatch : string -> string -> bool;
  (* os.path.join(root_path, file) *)
  os_path_join : string -> string -> string;
  (* os.path.abspath(os.path.expanduser(path)) *)
  os_path_abspath_expanduser : string -> string;
  (* os.path.isfile(path), os.path.isdir(path), os.path.split(path) *)
  os_path_isfile : string -> bool;
  os_path_isdir : string -> bool;
  os_path_split : string -> string * string
}.

(** ** collections.Counter over byte values

    A Counter is a dict: it keeps its keys in insertion order, which is the
    order in which [byte_counts.items()] yields them. *)

Definition Counter : Type := list (byte * nat).

Fixpoint counter_incr (b : byte) (c : Counter) : Counter :=
  match c with
  | [] => [(b, 1%nat)]
  | (k, n) :: c' =>
      if Byte.eqb k b then (k, S n) :: c' else (k, n) :: counter_incr b c'
  end.

(* Counter.update(data) for a bytes object *)
Definition counter_update (c : Counter) (data : list byte) : Counter :=
  fold_left (fun acc b => counter_incr b acc) data c.

(** ** file_entropy *)

Definition CHUNK : nat := 4096.

(** [file.read(n)] on an open file of which [file] is still unread: the next
    chunk, and what is left after it. *)
Definition file_read (n : nat) (file : list byte) : list byte * list byte :=
  (firstn n file, skipn n file).

Definition inspect {A} (a : A) : {b : A | a = b} := exist _ a eq_refl.

(** The loop [while data: data = file.read(4096); byte_counts.update(data)]:
    it ends at the first empty chunk, and every other turn consumes at least
    one byte of the file. *)
Equations? read_loop (file : list byte) (byte_counts : Counter) : Counter
  by wf (length file) lt :=
  read_loop file byte_counts with inspect (file_read CHUNK file) := {
    | exist _ ([], _) _ => counter_update byte_counts []
    | exist _ (b :: data, rest) Hread =>
        read_loop rest (counter_update byte_counts (b :: data))
  }.
Proof.
  unfold file_read, CHUNK in Hread. destruct file as [|x file]; [discriminate|].
  injection Hread as _ _ <-. rewrite length_skipn. cbn [length]. lia.
Qed.

(* count / file_size, on Python ints *)
Definition true_div (count file_size : nat) : result R :=
  match file_size with
  | O => Raise ZeroDivisionError
  | S _ => Ok (INR count / INR file_size)%R
  end.

Definition math_log (x : R) : result R :=
  if Rlt_dec 0 x then Ok (ln x) else Raise ValueError.

(* sum(iterable): left to right, from 0 *)
Definition sum (l : list R) : R := fold_left Rplus l 0%R.

Definition entropy_term (proportion : R) : result R :=
  try lp <- math_log proportion;
  try l2 <- math_log 2;
  Ok (proportion * lp / l2)%R.

(** What [file_entropy] computes once the byte counts are known. *)
Definition entropy_of_counts (file_size : nat) (byte_counts : Counter)
  : result R :=
  try byte_proportions <-
    comprehension (fun kv => true_div (snd kv) file_size) byte_counts;
  try terms <- comprehension entropy_term byte_proportions;
  let entropy := (- sum terms)%R in
  Ok (Rabs (entropy / 8)).

Section WithWorld.

Variable w : World.

Definition file_entropy (filepath : string) : result R :=
  if negb (os_path_exists w filepath) then Ok 0%R
  else
    try file_size <- os_stat_st_size w filepath;
    try file <- open_rb w filepath;
    let byte_counts := read_loop file [] in
    entropy_of_counts file_size byte_counts.

(* FileModEventHandler.__get_mime *)
Definition __get_mime (filepath : string) : result string :=
  try file_type <- filetype_guess w filepath;
  match file_type with
  | Some file_type_mime => Ok file_type_mime
  | None => Ok "<unknown>"
  end.

End WithWorld.

(** ** The log sink *)

Inductive level : Set := INFO | WARNING | ERROR.

(** The messages of the program, by their format string and its arguments. *)
Inductive message : Type :=
  | MsgCreated (src_path : string)
  | MsgClosed (src_path : string)
  | MsgDeleted (src_path : string)
  | MsgModified (src_path : string)
  | MsgMoved (src_path dest_path : string)
  (* '"{filepath}" has increased its entropy by {entropy_diff * 100:.2f}%' *)
  | MsgEntropy (filepath : string) (percent : R)
  (* '"{filepath}" has changed its MIME: {old} -> {new_mime}' *)
  | MsgMime (filepath : string) (old_mime new_mime : string)
  | MsgCpu
  | MsgMem
  | MsgDisk.

Record LogRecord : Type := { levelname : level; msg : message }.

(** ** FileModEventHandler *)

Record FileInfo : Type := { entropy : R; mime : string }.

Definition ENTROPY_LIMIT : R := 0.01%R.

(** The state the handlers work on: the dict [self.file_infos] and the
    records logged so far, oldest first. *)
Record State : Type := {
  file_infos : gmap string FileInfo;
  log : list LogRecord
}.

(** A handler runs on the state and either returns or raises; what it did
    to the dict and to the log before raising stays done. *)
Definition M (A : Type) : Type := State -> result A * State.

Definition ret {A} (a : A) : M A := fun s => (Ok a, s).

Definition bind {A B} (m : M A) (k : A -> M B) : M B :=
  fun s =>
    match m s with
    | (Ok a, s') => k a s'
    | (Raise e, s') => (Raise e, s')
    end.

Notation "'do' x <- m ; k" := (bind m (fun x => k))
  (at level 10, x name, m at level 100, k at level 200).

Definition lift {A} (r : result A) : M A := fun s => (r, s).

Definition logging (l : level) (m : message) : M unit :=
  fun s =>
    (Ok tt, {| file_infos := file_infos s;
               log := log s ++ [{| levelname := l; msg := m |}] |}).

(* filepath in self.file_infos *)
Definition contains (filepath : string) : M bool :=
  fun s => (Ok (bool_decide (is_Some (file_infos s !! filepath))), s).

(* self.file_infos[filepath] *)
Definition getitem (filepath : string) : M FileInfo :=
  fun s =>
    match file_infos s !! filepath with
    | Some info => (Ok info, s)
    | None => (Raise KeyError, s)
    end.

(* self.file_infos[filepath] = info *)
Definition setitem (filepath : string) (info : FileInfo) : M unit :=
  fun s =>
    (Ok tt, {| file_infos := <[filepath := info]> (file_infos s);
               log := log s |}).

(* del self.file_infos[filepath] *)
Definition delitem (filepath : string) : M unit :=
  fun s =>
    match file_infos s !! filepath with
    | Some _ =>
        (Ok tt, {| file_infos := delete filepath (file_infos s);
                   log := log s |})
    | None => (Raise KeyError, s)
    end.

Section Handlers.

Variable w : World.

(* FileInfo(file_entropy(filepath), self.__get_mime(filepath)) *)
Definition probe (filepath : string) : result FileInfo :=
  try e <- file_entropy w filepath;
  try m <- __get_mime w filepath;
  Ok {| entropy := e; mime := m |}.

Definition on_created (src_path : string) : M unit :=
  do _ <- logging INFO (MsgCreated src_path);
  do info <- lift (probe src_path);
  setitem src_path info.

Definition on_closed (src_path : string) : M unit :=
  logging INFO (MsgClosed src_path).

Definition on_deleted (src_path : string) : M unit :=
  do _ <- logging INFO (MsgDeleted src_path);
  do tracked <- contains src_path;
  if negb tracked then ret tt
  else delitem src_path.

Definition __update_info (filepath : string) : M unit :=
  do tracked <- contains filepath;
  if negb tracked then ret tt
  else if negb (os_path_exists w filepath) then delitem filepath
  else
    do new_entropy <- lift (file_entropy w filepath);
    do new_mime <- lift (__get_mime w filepath);
    do old <- getitem filepath;
    let entropy_diff := (new_entropy - entropy old)%R in
    do _ <- (if Rgt_dec entropy_diff ENTROPY_LIMIT
        then logging WARNING (MsgEntropy filepath (entropy_diff * 100))
        else ret tt);
    do old' <- getitem filepath;
    do _ <- (if decide (new_mime = mime old')
        then ret tt
        else logging WARNING (MsgMime filepath (mime old') new_mime));
    setitem filepath {| entropy := new_entropy; mime := new_mime |}.

Definition on_modified (src_path : string) : M unit :=
  do _ <- logging INFO (MsgModified src_path);
  __update_info src_path.

Definition on_moved (src_path dest_path : string) : M unit :=
  do _ <- logging INFO (MsgMoved src_path dest_path);
  do tracked <- contains src_path;
  if tracked then
    do info <- getitem src_path;
    do _ <- setitem dest_path info;
    do _ <- delitem src_path;
    __update_info dest_path
  else
    do info <- lift (probe dest_path);
    setitem dest_path info.

(** [for x in l: body], threading the value under construction and
    stopping at the first exception. *)
Fixpoint for_in {A S} (l : list A) (body : A -> S -> result S) (acc : S)
  : result S :=
  match l with
  | [] => Ok acc
  | a :: l' =>
      try acc' <- body a acc;
      for_in l' body acc'
  end.

(* fnmatch.filter(files, pattern) *)
Definition fnmatch_filter (files : list string) (pattern : string)
  : list string :=
  List.filter (fun name => fnmatch w name pattern) files.

Definition __init_file_infos (monitoring_path : string)
  (patterns : list string) : result (gmap string FileInfo) :=
  for_in (os_walk w monitoring_path)
    (fun walked acc =>
       let '(root_path, folders, files) := walked in
       for_in patterns
         (fun pattern acc =>
            let filtered_files := fnmatch_filter files pattern in
            for_in filtered_files
              (fun file acc =>
                 let filepath := os_path_join w root_path file in
                 try info <- probe filepath;
                 Ok (<[filepath := info]> acc))
              acc)
         acc)
    (∅ : gmap string FileInfo).

(* The watchdog dispatch by event kind, once the pattern filter let the
   event through. *)
Inductive event : Set :=
  | FileCreated (src_path : string)
  | FileClosed (src_path : string)
  | FileDeleted (src_path : string)
  | FileModified (src_path : string)
  | FileMoved (src_path dest_path : string).

Definition dispatch (ev : event) : M unit :=
  match ev with
  | FileCreated p => on_created p
  | FileClosed p => on_closed p
  | FileDeleted p => on_deleted p
  | FileModified p => on_modified p
  | FileMoved src dest => on_moved src dest
  end.

End Handlers.

(** The observer thread delivers the events one after the other, each in
    the world as it is when the handler runs; an exception that leaves a
    handler ends the delivery. *)
Fixpoint observe (evs : list (World * event)) : M unit :=
  match evs with
  | [] => ret tt
  | (w, ev) :: evs' =>
      do _ <- dispatch w ev;
      observe evs'
  end.

(** ** The resource probes

    Each probe is an endless loop; the model runs it on the samples it is
    given, one turn of the loop per sample, and lists what it logs and how
    long it sleeps. *)

Inductive probe_action : Type :=
  | ProbeLog (r : LogRecord)
  | ProbeSleep (seconds : Z).

(* One turn of [while True] in __cpu_check; [cpu] is psutil.cpu_percent. *)
Definition cpu_iteration (cpu : R) : list probe_action :=
  if Rgt_dec cpu 10
  then [ProbeLog {| levelname := WARNING; msg := MsgCpu |}; ProbeSleep 10]
  else [].

Definition __cpu_check (samples : list R) : list probe_action :=
  flat_map cpu_iteration samples.

(* One turn of [while True] in __mem_check; [rss] is memory_info().rss. *)
Definition mem_iteration (rss : nat) : list probe_action :=
  let mem := (INR rss / 1048576)%R in
  (if Rgt_dec mem 100
   then [ProbeLog {| levelname := ERROR; msg := MsgMem |}]
   else [])
  ++ [ProbeSleep 10].

Definition __mem_check (samples : list nat) : list probe_action :=
  flat_map mem_iteration samples.

(* One turn of [while True] in __disk_check: what it does, and the new
   last_reading_time. *)
Definition disk_iteration (sleep_time last_reading_time new_reading_time : Z)
  : list probe_action * Z :=
  let reading_time_diff := (new_reading_time - last_reading_time)%Z in
  ((if (reading_time_diff >? sleep_time * 100)%Z
    then [ProbeLog {| levelname := WARNING; msg := MsgDisk |}]
    else [])
   ++ [ProbeSleep sleep_time],
   new_reading_time).

Fixpoint disk_loop (sleep_time last_reading_time : Z) (readings : list Z)
  : list probe_action :=
  match readings with
  | [] => []
  | new_reading_time :: readings' =>
      let '(done, last') :=
        disk_iteration sleep_time last_reading_time new_reading_time in
      done ++ disk_loop sleep_time last' readings'
  end.

(** [readings] are the successive results of [IronDome.__reading_time()]. *)
Definition __disk_check (readings : list Z) : list probe_action :=
  let sleep_time := 1%Z in
  match readings with
  | [] => []
  | last_reading_time :: readings' =>
      disk_loop sleep_time last_reading_time readings'
  end.

(** ** IronDome *)

Definition LOG_FILEPATH : string := "/var/log/irondome/irondome.log".
Definition SLEEP_TIME : Z := 5.

Record IronDome : Type := {
  monitoring_path : string;
  patterns : list string;
  interval : Z
}.

Inductive thread : Set := cpu_thread | mem_thread | disk_thread.

(** What [run] does, in order, up to its idle loop. *)
Inductive action : Type :=
  | ThreadStart (t : thread)
  | Makedirs (path : string)
  | LoggingBasicConfig (filename : string)
  (* FileModEventHandler(...) returned, with this self.file_infos *)
  | HandlerInit (infos : gmap string FileInfo)
  | ObserverSchedule (path : string) (recursive : bool)
  | ObserverStart.

Section Sentinel.

Variable w : World.

(* IronDome.__init__ *)
Definition IronDome_init (dir_path : string) (extensions : list string)
  (interval : Z) : IronDome :=
  let monitoring_path := os_path_abspath_expanduser w dir_path in
  let patterns :=
    match extensions with
    | [] => ["*"]
    | _ :: _ => map (fun x => ("*." ++ x)%string) extensions
    end in
  if os_path_isfile w monitoring_path then
    let '(head, filename) := os_path_split w monitoring_path in
    {| monitoring_path := head; patterns := [filename];
       interval := interval |}
  else
    {| monitoring_path := monitoring_path; patterns := patterns;
       interval := interval |}.

(** [run], up to the point where the main thread idles: the actions taken
    and, when the observer was started, the handler state it delivers
    events to. An exception of the initial scan leaves [run] before the
    observer exists. *)
Definition run (self : IronDome) : list action * result State :=
  let startup :=
    [ThreadStart cpu_thread; ThreadStart mem_thread; ThreadStart disk_thread;
     Makedirs (fst (os_path_split w LOG_FILEPATH));
     LoggingBasicConfig LOG_FILEPATH] in
  match __init_file_infos w (monitoring_path self) (patterns self) with
  | Raise e => (startup, Raise e)
  | Ok infos =>
      (startup ++
       [HandlerInit infos;
        ObserverSchedule (monitoring_path self)
          (os_path_isdir w (monitoring_path self));
        ObserverStart],
       Ok {| file_infos := infos; log := [] |})
  end.

(** A whole execution: [run] in the world [w], then the events the observer
    delivers, and the three probe threads on their samples. *)
Record Behaviour : Type := {
  actions : list action;
  watch : option (result unit * State);
  cpu_probe : list probe_action;
  mem_probe : list probe_action;
  disk_probe : list probe_action
}.

Definition execute (self : IronDome) (evs : list (World * event))
  (cpu_samples : list R) (mem_samples : list nat) (disk_readings : list Z)
  : Behaviour :=
  let '(acts, started) := run self in
  {| actions := acts;
     watch :=
       match started with
       | Ok st => Some (observe evs st)
       | Raise _ => None
       end;
     cpu_probe := __cpu_check cpu_samples;
     mem_probe := __mem_check mem_samples;
     disk_probe := __disk_check disk_readings |}.

End Sentinel.

(** ** Specification-side definitions *)

(** The 256 byte values, in increasing order. *)
Definition all_bytes : list byte :=
  omap Byte.of_nat (seq 0 256).

Definition occurrences (b : byte) (file : list byte) : nat :=
  count_occ Byte.byte_eq_dec file b.

(** The entropy score as the specification words it: p_b = count_b / size
    for every byte value with a nonzero count, H = - sum of p_b * log2 p_b,
    and the score is H / 8. *)
Definition log2 (x : R) : R := (ln x / ln 2)%R.

Definition shannon_term (file : list byte) (b : byte) : R :=
  match occurrences b file with
  | O => 0%R
  | S _ =>
      let p := (INR (occurrences b file) / INR (length file))%R in
      (p * log2 p)%R
  end.

Definition shannon (file : list byte) : R :=
  (- fold_right Rplus 0 (map (shannon_term file) all_bytes))%R.

Definition measure_spec (file : list byte) : R := (shannon file / 8)%R.

(** The file at [filepath] exists, can be read, and holds [file]. *)
Definition holds (w : World) (filepath : string) (file : list byte) : Prop :=
  os_path_exists w filepath = true /\
  os_stat_st_size w filepath = Ok (length file) /\
  open_rb w filepath = Ok file.

(** What is at [filepath]: nothing, or a readable file with its bytes. *)
Definition observed (w : World) (filepath : string)
  (content : option (list byte)) : Prop :=
  match content with
  | None => os_path_exists w filepath = false
  | Some file => holds w filepath file
  end.

(** ** Counters, as the proofs see them *)

(** The count a Counter holds for a key (0 for a missing key). *)
Fixpoint counter_get (c : Counter) (b : byte) : nat :=
  match c with
  | [] => O
  | (k, n) :: c' => if Byte.eqb k b then n else counter_get c' b
  end.

Definition counter_keys (c : Counter) : list byte := map fst c.
Definition counter_total (c : Counter) : nat := list_sum (map snd c).

(** Keys are distinct and no key has count 0. *)
Definition counter_wf (c : Counter) : Prop :=
  List.NoDup (counter_keys c) /\ List.Forall (fun kn => (0 < snd kn)%nat) c.

(** The proportions [count / file_size] of a Counter, and the sum of their
    [p * log(p) / log(2)]. *)
Definition proportions (file_size : nat) (c : Counter) : list R :=
  map (fun kn => (INR (snd kn) / INR file_size)%R) c.

Definition counts_plogp (file_size : nat) (c : Counter) : R :=
  fold_right Rplus 0%R
    (map (fun kn =>
            let p := (INR (snd kn) / INR file_size)%R in
            (p * ln p / ln 2)%R) c).

(** ** The anomaly rule, as the specification words it

    What comparing an old baseline with a new measurement logs: a warning
    when the entropy grew by more than [ENTROPY_LIMIT], and a warning when
    the type label changed. *)

Definition warning (m : message) : LogRecord :=
  {| levelname := WARNING; msg := m |}.

Definition info (m : message) : LogRecord :=
  {| levelname := INFO; msg := m |}.

Definition entropy_alarm (filepath : string) (old_entropy new_entropy : R)
  : list LogRecord :=
  if Rgt_dec (new_entropy - old_entropy) ENTROPY_LIMIT
  then [warning (MsgEntropy filepath ((new_entropy - old_entropy) * 100))]
  else [].

Definition mime_alarm (filepath : string) (old_mime new_mime : string)
  : list LogRecord :=
  if decide (new_mime = old_mime)
  then []
  else [warning (MsgMime filepath old_mime new_mime)].

Definition is_entropy_warning (r : LogRecord) : Prop :=
  levelname r = WARNING /\ exists filepath percent, msg r = MsgEntropy filepath percent.

Definition is_mime_warning (r : LogRecord) : Prop :=
  levelname r = WARNING /\
  exists filepath old_mime new_mime, msg r = MsgMime filepath old_mime new_mime.

(** The state after [records] were logged and the dict became [infos]. *)
Definition after (s : State) (infos : gmap string FileInfo)
  (records : list LogRecord) : State :=
  {| file_infos := infos; log := log s ++ records |}.

(** A recompute of [filepath] fails with [e]: the existence check passes,
    then the measurement or the type guess raises [e]. *)
Definition recompute_fails (w : World) (filepath : string) (e : exn) : Prop :=
  os_path_exists w filepath = true /\
  (file_entropy w filepath = Raise e \/
   exists new_entropy,
     file_entropy w filepath = Ok new_entropy /\
     __get_mime w filepath = Raise e).

(** ** The loops of [__init_file_infos], innermost first *)

(* for file in filtered_files: one turn *)
Definition scan_file (w : World) (root_path file : string)
  (acc : gmap string FileInfo) : result (gmap string FileInfo) :=
  let filepath := os_path_join w root_path file in
  try new <- probe w filepath;
  Ok (<[filepath := new]> acc).

(* for pattern in self.patterns: one turn *)
Definition scan_pattern (w : World) (root_path : string) (files : list string)
  (pattern : string) (acc : gmap string FileInfo)
  : result (gmap string FileInfo) :=
  for_in (fnmatch_filter w files pattern) (scan_file w root_path) acc.

(* for root_path, folders, files in os.walk(...): one turn *)
Definition scan_folder (w : World) (patterns : list string)
  (walked : string * list string * list string)
  (acc : gmap string FileInfo) : result (gmap string FileInfo) :=
  let '(root_path, folders, files) := walked in
  for_in patterns (scan_pattern w root_path files) acc.

(** Every entry of the dict is the measurement of its path. *)
Definition measured (w : World) (infos : gmap string FileInfo) : Prop :=
  forall filepath new, infos !! filepath = Some new -> probe w filepath = Ok new.

(** [filepath] is a file of the walk that matches one of the patterns. *)
Definition eligible (w : World) (self : IronDome) (filepath : string) : Prop :=
  exists root_path folders files pattern file,
    In (root_path, folders, files) (os_walk w (monitoring_path self)) /\
    In pattern (patterns self) /\
    In file files /\
    fnmatch w file pattern = true /\
    filepath = os_path_join w root_path file.

(** ** Concrete worlds

    A directory [top] holding the listed files, each with its bytes and the
    type [filetype] guesses for it; paths are [top ++ "/" ++ name], and the
    only patterns are ["*"] and a file name. *)

Fixpoint assoc {V} (name : string) (l : list (string * V)) : option V :=
  match l with
  | [] => None
  | (k, v) :: l' => if String.eqb k name then Some v else assoc name l'
  end.

Definition dir_world (top : string)
  (files : list (string * (list byte * option string))) : World :=
  let at_path p :=
    assoc p (map (fun nv => ((top ++ "/" ++ fst nv)%string, snd nv)) files) in
  {| os_path_exists p := match at_path p with Some _ => true | None => false end;
     os_stat_st_size p :=
       match at_path p with
       | Some (bytes, _) => Ok (length bytes)
       | None => Raise OSError
       end;
     open_rb p :=
       match at_path p with
       | Some (bytes, _) => Ok bytes
       | None => Raise OSError
       end;
     filetype_guess p :=
       match at_path p with
       | Some (_, ty) => Ok ty
       | None => Raise OSError
       end;
     os_walk p :=
       if String.eqb p top then [(top, [], map fst files)] else [];
     fnmatch name pattern := String.eqb pattern "*" || String.eqb name pattern;
     os_path_join a b := (a ++ "/" ++ b)%string;
     os_path_abspath_expanduser p := p;
     os_path_isfile p := match at_path p with Some _ => true | None => false end;
     os_path_isdir p := String.eqb p top;
     os_path_split p := (p, "") |}.

(** The same directory when the files can no longer be opened (removed or
    made unreadable after [os.path.exists] and [os.stat] answered). *)
Definition unreadable (w : World) : World :=
  {| os_path_exists := os_path_exists w;
     os_stat_st_size := os_stat_st_size w;
     open_rb p := Raise OSError;
     filetype_guess p := Raise OSError;
     os_walk := os_walk w;
     fnmatch := fnmatch w;
     os_path_join := os_path_join w;
     os_path_abspath_expanduser := os_path_abspath_expanduser w;
     os_path_isfile := os_path_isfile w;
     os_path_isdir := os_path_isdir w;
     os_path_split := os_path_split w |}.

Definition xA : byte := "A"%byte.
Definition xB : byte := "B"%byte.

Definition extremes_world : World :=
  dir_world "/d"
    [("same", ([xA; xA; xA], None)); ("all", (all_bytes, None))].

(** A directory with one text file of two different bytes, and a state that
    tracks it with entropy 0. *)
Definition text_world : World :=
  dir_world "/d" [("f", ([xA; xB], Some "text/plain"))].

Definition text_state : State :=
  {| file_infos := {[ "/d/f" := {| entropy := 0%R; mime := "text/plain" |} ]};
     log := [] |}.

(** A state that tracks "/d/old" with the baseline of the file that
    [text_world] holds at "/d/f". *)
Definition renamed_state : State :=
  {| file_infos :=
       {[ "/d/old" := {| entropy := measure_spec [xA; xB];
                         mime := "text/plain" |} ]};
     log := [] |}.

(** The directory after its only file was removed. *)
Definition empty_world : World := dir_world "/d" [].

(** The sentinel started on that directory, with no extension filter. *)
Definition text_dome : IronDome := IronDome_init text_world "/d" [] 1.

(** ** IronDome.__reading_time

    [fields] is [f.readline().split()] for the first line of
    /proc/diskstats; a string is a sequence of code points below 256, among
    which the decimal characters of [str.isdecimal] are '0' to '9'. *)

(* time_ms.isdecimal() *)
Definition isdecimal (s : string) : bool :=
  match NilZero.uint_of_string s with
  | Some _ => true
  | None => false
  end.

(* int(time_ms); None is ValueError *)
Definition int (s : string) : option Z :=
  match NilZero.uint_of_string s with
  | Some d => Some (Z.of_N (N.of_uint d))
  | None => None
  end.

Inductive reading : Set :=
  | Returned (time_ms : Z)
  | RaisedIndexError      (* f.readline().split()[6] *)
  | RaisedValueError.     (* int(time_ms) *)

Definition __reading_time (fields : list string) : reading :=
  match nth_error fields 6 with
  | None => RaisedIndexError
  | Some time_ms =>
      if isdecimal time_ms then
        match int time_ms with
        | Some n => Returned n
        | None => RaisedValueError
        end
      else Returned 0
  end.

(** [__disk_check] with its calls of [__reading_time]: [lines] are the
    fields the successive calls find; the thread ends with the exception of
    the first call that raises. *)
Fixpoint disk_loop_lines (sleep_time last_reading_time : Z)
  (lines : list (list string)) : list probe_action * option reading :=
  match lines with
  | [] => ([], None)
  | fields :: lines' =>
      match __reading_time fields with
      | Returned new_reading_time =>
          let '(done, last') :=
            disk_iteration sleep_time last_reading_time new_reading_time in
          let '(rest, raised) := disk_loop_lines sleep_time last' lines' in
          (done ++ rest, raised)
      | raised => ([], Some raised)
      end
  end.

Definition __disk_check_lines (lines : list (list string))
  : list probe_action * option reading :=
  let sleep_time := 1%Z in
  match lines with
  | [] => ([], None)
  | fields :: lines' =>
      match __reading_time fields with
      | Returned last_reading_time =>
          disk_loop_lines sleep_time last_reading_time lines'
      | raised => ([], Some raised)
      end
  end.

(** ** Vocabulary of the further properties *)

Definition event_paths (ev : event) : list string :=
  match ev with
  | FileCreated p | FileClosed p | FileDeleted p | FileModified p => [p]
  | FileMoved src dest => [src; dest]
  end.

(* the INFO record each handler logs first *)
Definition event_info (ev : event) : LogRecord :=
  info match ev with
       | FileCreated p => MsgCreated p
       | FileClosed p => MsgClosed p
       | FileDeleted p => MsgDeleted p
       | FileModified p => MsgModified p
       | FileMoved src dest => MsgMoved src dest
       end.

Definition is_warning (r : LogRecord) : Prop := levelname r = WARNING.

(** In the world [w] the file at [filepath] exists and is measured as
    [new]. *)
Definition measures (w : World) (filepath : string) (new : FileInfo) : Prop :=
  os_path_exists w filepath = true /\
  file_entropy w filepath = Ok (entropy new) /\
  __get_mime w filepath = Ok (mime new).

(** Successive states of one file, each measured in its own world: the
    type label stays, and the entropy never grows by more than
    [ENTROPY_LIMIT] from one state to the next. *)
Fixpoint creeping (filepath : string) (old : FileInfo)
  (steps : list (World * FileInfo)) : Prop :=
  match steps with
  | [] => True
  | (w, new) :: steps' =>
      measures w filepath new /\
      (entropy new - entropy old <= ENTROPY_LIMIT)%R /\
      mime new = mime old /\
      creeping filepath new steps'
  end.

(* the warnings among the actions of a probe *)
Definition probe_warnings (done : list probe_action) : nat :=
  length (List.filter
            (fun a => match a with ProbeLog _ => true | ProbeSleep _ => false end)
            done).

(** A state that tracks "/d/f" with the baseline of the file [text_world]
    holds there, and the directory after that file was renamed to "/d/g". *)
Definition fresh_state : State :=
  {| file_infos :=
       {[ "/d/f" := {| entropy := measure_spec [xA; xB];
                       mime := "text/plain" |} ]};
     log := [] |}.

Definition moved_world : World :=
  dir_world "/d" [("g", ([xA; xB], Some "text/plain"))].

(** The readings that follow [last_reading_time] never go down, as those of
    a counter do. *)
Fixpoint nondecreasing (last_reading_time : Z) (readings : list Z) : Prop :=
  match readings with
  | [] => True
  | new_reading_time :: readings' =>
      (last_reading_time <= new_reading_time)%Z /\
      nondecreasing new_reading_time readings'
  end.

(** [text_world] with an [os.path.split] that knows "/d/f", and the
    sentinel started on that file with an extension filter. *)
Definition file_world : World :=
  {| os_path_exists := os_path_exists text_world;
     os_stat_st_size := os_stat_st_size text_world;
     open_rb := open_rb text_world;
     filetype_guess := filetype_guess text_world;
     os_walk := os_walk text_world;
     fnmatch := fnmatch text_world;
     os_path_join := os_path_join text_world;
     os_path_abspath_expanduser := os_path_abspath_expanduser text_world;
     os_path_isfile := os_path_isfile text_world;
     os_path_isdir := os_path_isdir text_world;
     os_path_split p := if String.eqb p "/d/f" then ("/d", "f") else (p, "") |}.

Definition file_dome : IronDome := IronDome_init file_world "/d/f" ["txt"] 1.

(** [text_world] seen through a stale [os.stat]: the size was read as 0
    before the file was written. *)
Definition stale_world : World :=
  {| os_path_exists := os_path_exists text_world;
     os_stat_st_size p := Ok O;
     open_rb := open_rb text_world;
     filetype_guess := filetype_guess text_world;
     os_walk := os_walk text_world;
     fnmatch := fnmatch text_world;
     os_path_join := os_path_join text_world;
     os_path_abspath_expanduser := os_path_abspath_expanduser text_world;
     os_path_isfile := os_path_isfile text_world;
     os_path_isdir := os_path_isdir text_world;
     os_path_split := os_path_split text_world |}.

(** The directory while the new content sits in a temporary file. *)
Definition tmp_world : World :=
  dir_world "/d" [("tmp", ([xA; xB], Some "text/plain"))].

(** A file of eight equal bytes seen through a stale [os.stat]: the size
    was read as 1 while the file was still being written. *)
Definition grown_world : World :=
  {| os_path_exists := os_path_exists text_world;
     os_stat_st_size p := Ok 1%nat;
     open_rb p := Ok (repeat xA 8);
     filetype_guess := filetype_guess text_world;
     os_walk := os_walk text_world;
     fnmatch := fnmatch text_world;
     os_path_join := os_path_join text_world;
     os_path_abspath_expanduser := os_path_abspath_expanduser text_world;
     os_path_isfile := os_path_isfile text_world;
     os_path_isdir := os_path_isdir text_world;
     os_path_split := os_path_split text_world |}.

(** * Properties *)

(** ** Counters *)

Lemma byte_eqb_eq (a b : byte) : Byte.eqb a b = true <-> a = b.
Proof.
  split; [apply Byte.byte_dec_bl | apply Byte.byte_dec_lb].
Qed.

Lemma byte_eqb_refl (a : byte) : Byte.eqb a a = true.
Proof. now apply byte_eqb_eq. Qed.

Lemma byte_eqb_neq (a b : byte) : a <> b -> Byte.eqb a b = false.
Proof.
  intros Hab. destruct (Byte.eqb a b) eqn:E; [|reflexivity].
  now apply byte_eqb_eq in E.
Qed.

Lemma counter_incr_keys b c k :
  In k (counter_keys (counter_incr b c)) <-> k = b \/ In k (counter_keys c).
Proof.
  induction c as [|[k' n] c IH]; cbn.
  - intuition congruence.
  - destruct (Byte.eqb k' b) eqn:E; cbn.
    + apply byte_eqb_eq in E. subst. intuition congruence.
    + unfold counter_keys in IH. rewrite IH. intuition congruence.
Qed.

Lemma counter_incr_wf b c : counter_wf c -> counter_wf (counter_incr b c).
Proof.
  unfold counter_wf. induction c as [|[k n] c IH]; cbn; intros [Hnd Hpos].
  - split; repeat constructor. intros [].
  - inversion Hnd as [|? ? Hk Hnd']; subst.
    inversion Hpos as [|? ? Hn Hpos']; subst.
    destruct (Byte.eqb k b) eqn:E; cbn.
    + split; constructor; cbn in *; auto; lia.
    + destruct (IH (conj Hnd' Hpos')) as [IH1 IH2].
      split; constructor; auto.
      intros Hin. apply (counter_incr_keys b c k) in Hin.
      destruct Hin as [->|Hin]; [|contradiction].
      now rewrite byte_eqb_refl in E.
Qed.

Lemma counter_incr_get b c k :
  counter_get (counter_incr b c) k =
  (counter_get c k + if Byte.eqb b k then 1 else 0)%nat.
Proof.
  induction c as [|[k' n] c IH]; cbn.
  - destruct (Byte.eqb b k); lia.
  - destruct (Byte.eqb k' b) eqn:E; cbn.
    + apply byte_eqb_eq in E. subst k'.
      destruct (Byte.eqb b k); lia.
    + destruct (Byte.eqb k' k) eqn:E'; [|apply IH].
      apply byte_eqb_eq in E'. subst k'.
      assert (Byte.eqb b k = false) as ->; [|lia].
      apply byte_eqb_neq. intros ->. now rewrite byte_eqb_refl in E.
Qed.

Lemma counter_incr_total b c :
  counter_total (counter_incr b c) = S (counter_total c).
Proof.
  unfold counter_total.
  induction c as [|[k n] c IH]; cbn [counter_incr]; [reflexivity|].
  destruct (Byte.eqb k b); cbn [map snd list_sum]; [reflexivity|].
  unfold list_sum in *. cbn [fold_right]. rewrite IH. lia.
Qed.

Lemma counter_update_app c l1 l2 :
  counter_update c (l1 ++ l2) = counter_update (counter_update c l1) l2.
Proof. apply fold_left_app. Qed.

Lemma counter_update_cons c b data :
  counter_update c (b :: data) = counter_update (counter_incr b c) data.
Proof. reflexivity. Qed.

Lemma counter_update_wf data : forall c,
  counter_wf c -> counter_wf (counter_update c data).
Proof.
  induction data as [|b data IH]; intros c Hc; [exact Hc|].
  rewrite counter_update_cons. apply IH. now apply counter_incr_wf.
Qed.

Lemma counter_update_get data : forall c k,
  counter_get (counter_update c data) k =
  (counter_get c k + occurrences k data)%nat.
Proof.
  unfold occurrences.
  induction data as [|b data IH]; intros c k; [cbn; lia|].
  rewrite counter_update_cons, IH, counter_incr_get. cbn [count_occ].
  destruct (Byte.byte_eq_dec b k) as [->|Hne].
  - rewrite byte_eqb_refl. lia.
  - rewrite (byte_eqb_neq _ _ Hne). lia.
Qed.

Lemma counter_update_total data : forall c,
  counter_total (counter_update c data) = (counter_total c + length data)%nat.
Proof.
  induction data as [|b data IH]; intros c.
  - cbn [length]. now rewrite Nat.add_0_r.
  - rewrite counter_update_cons, IH, counter_incr_total. cbn [length]. lia.
Qed.

Lemma counter_get_In c k n :
  List.NoDup (counter_keys c) -> In (k, n) c -> counter_get c k = n.
Proof.
  induction c as [|[k' n'] c IH]; cbn; [tauto|].
  intros Hnd [Heq|Hin].
  - injection Heq as -> ->. now rewrite byte_eqb_refl.
  - inversion Hnd as [|? ? Hk Hnd']; subst.
    destruct (Byte.eqb k' k) eqn:E; [|now apply IH].
    apply byte_eqb_eq in E. subst k'. exfalso. apply Hk.
    unfold counter_keys. apply in_map_iff. now exists (k, n).
Qed.

Lemma counter_get_pos_key c k :
  (0 < counter_get c k)%nat -> In k (counter_keys c).
Proof.
  induction c as [|[k' n'] c IH]; cbn; [lia|].
  destruct (Byte.eqb k' k) eqn:E; [|auto].
  apply byte_eqb_eq in E. auto.
Qed.

(** Reading by chunks counts the same as one update with the whole file. *)
Lemma read_loop_all file : forall byte_counts,
  read_loop file byte_counts = counter_update byte_counts file.
Proof.
  induction file as [file IH] using (induction_ltof1 _ (@length byte)).
  unfold ltof in IH. intros c. rewrite read_loop_equation_1.
  unfold read_loop_unfold_clause_1.
  destruct (inspect (file_read CHUNK file)) as [[[|b data] rest] Hread];
    unfold file_read, CHUNK in Hread; cbn beta iota.
  - destruct file; [reflexivity|discriminate].
  - destruct file as [|x file]; [discriminate|].
    assert (Hsplit : x :: file = (b :: data) ++ rest).
    { injection Hread as <- <- <-. symmetry. apply (firstn_skipn 4096 (x :: file)). }
    rewrite IH.
    + rewrite Hsplit. now rewrite counter_update_app.
    + rewrite Hsplit, length_app. cbn. lia.
Qed.

(** ** Real-number facts behind the entropy bounds *)

Open Scope R_scope.

Lemma sum_fold_right l : sum l = fold_right Rplus 0 l.
Proof.
  unfold sum.
  assert (H : forall a, fold_left Rplus l a = a + fold_right Rplus 0 l).
  { induction l as [|x l IH]; intros a; cbn; [lra|]. rewrite IH. lra. }
  rewrite H. lra.
Qed.

Lemma ln_2_pos : 0 < ln 2.
Proof. pose proof ln_lt_2. lra. Qed.

Lemma ln_256 : ln 256 = 8 * ln 2.
Proof.
  replace 256 with (2 ^ 8) by lra.
  rewrite ln_pow by lra. cbn [INR]. lra.
Qed.

Lemma ln_le_sub1 x : 0 < x -> ln x <= x - 1.
Proof.
  intros Hx. pose proof (exp_ineq1_le (x - 1)) as H.
  replace (1 + (x - 1)) with x in H by lra.
  destruct H as [H|H].
  - left. rewrite <- (ln_exp (x - 1)). apply ln_increasing; assumption.
  - right. rewrite H at 1. apply ln_exp.
Qed.

Lemma ln_nonpos p : 0 < p <= 1 -> ln p <= 0.
Proof.
  intros [H0 H1]. pose proof (ln_le_sub1 p H0). lra.
Qed.

(** One term of Gibbs' inequality against the uniform law on 256 values. *)
Lemma plogp_upper p : 0 < p -> - (p * ln p) <= p * (8 * ln 2) + / 256 - p.
Proof.
  intros Hp.
  assert (Hq : 0 < / (256 * p)) by (apply Rinv_0_lt_compat; lra).
  pose proof (ln_le_sub1 _ Hq) as H.
  rewrite ln_Rinv in H by lra.
  rewrite ln_mult in H by lra.
  rewrite ln_256 in H.
  apply (Rmult_le_compat_l p) in H; [|lra].
  replace (p * (/ (256 * p) - 1)) with (/ 256 - p) in H by (field; lra).
  lra.
Qed.

Lemma plogp_sum_upper ps :
  List.Forall (fun p => 0 < p) ps ->
  - fold_right Rplus 0 (map (fun p => p * ln p) ps) <=
  fold_right Rplus 0 ps * (8 * ln 2) + INR (length ps) / 256
  - fold_right Rplus 0 ps.
Proof.
  induction 1 as [|p ps Hp _ IH].
  - cbn. lra.
  - cbn [map fold_right length]. rewrite S_INR.
    pose proof (plogp_upper p Hp). lra.
Qed.

Lemma plogp_sum_nonpos ps :
  List.Forall (fun p => 0 < p <= 1) ps ->
  fold_right Rplus 0 (map (fun p => p * ln p) ps) <= 0.
Proof.
  induction 1 as [|p ps Hp _ IH]; cbn [map fold_right]; [lra|].
  pose proof (ln_nonpos p Hp).
  assert (p * ln p <= 0) by nra. lra.
Qed.

Lemma fold_right_Rplus_scal (k : R) l :
  fold_right Rplus 0 (map (fun x => x * k) l) = fold_right Rplus 0 l * k.
Proof.
  induction l as [|x l IH]; cbn [map fold_right]; [lra|]. rewrite IH. lra.
Qed.

(** ** The byte alphabet *)

Lemma all_bytes_complete (b : byte) : In b all_bytes.
Proof.
  apply list_elem_of_In. unfold all_bytes. apply list_elem_of_omap.
  exists (Byte.to_nat b). split; [|apply Byte.of_to_nat].
  apply list_elem_of_In, in_seq. pose proof (Byte.to_nat_bounded b). lia.
Qed.

Lemma all_bytes_NoDup : List.NoDup all_bytes.
Proof.
  apply (List.NoDup_map_inv Byte.to_nat).
  replace (map Byte.to_nat all_bytes) with (seq 0 256)
    by (vm_compute; reflexivity).
  apply seq_NoDup.
Qed.

Lemma all_bytes_length : length all_bytes = 256%nat.
Proof. vm_compute. reflexivity. Qed.

Lemma distinct_bytes_length (ks : list byte) :
  List.NoDup ks -> (length ks <= 256)%nat.
Proof.
  intros Hnd. rewrite <- all_bytes_length.
  apply List.NoDup_incl_length; [assumption|].
  intros b _. apply all_bytes_complete.
Qed.

(** ** Sums over lists without repetition *)

Lemma fold_right_Rplus_app l1 l2 :
  fold_right Rplus 0 (l1 ++ l2) = fold_right Rplus 0 l1 + fold_right Rplus 0 l2.
Proof.
  induction l1 as [|x l1 IH]; cbn [app fold_right]; [lra|]. rewrite IH. lra.
Qed.

Lemma sum_zero {A} (g : A -> R) l :
  (forall x, In x l -> g x = 0) -> fold_right Rplus 0 (map g l) = 0.
Proof.
  induction l as [|x l IH]; intros Hg; cbn [map fold_right]; [reflexivity|].
  rewrite Hg by (left; reflexivity).
  rewrite IH; [lra|]. intros y Hy. apply Hg. now right.
Qed.

(** A sum over [l2] only sees the support of the summand. *)
Lemma sum_on_support {A} (g : A -> R) (l1 : list A) : forall l2,
  List.NoDup l1 -> List.NoDup l2 -> incl l1 l2 ->
  (forall x, In x l2 -> ~ In x l1 -> g x = 0) ->
  fold_right Rplus 0 (map g l1) = fold_right Rplus 0 (map g l2).
Proof.
  induction l1 as [|a l1 IH]; intros l2 Hnd1 Hnd2 Hincl Hzero.
  - cbn [map fold_right]. symmetry. apply sum_zero.
    intros x Hx. apply Hzero; [assumption|intros []].
  - assert (Ha : In a l2) by (apply Hincl; now left).
    apply in_split in Ha. destruct Ha as (pre & post & ->).
    apply List.NoDup_remove in Hnd2. destruct Hnd2 as [Hnd2 Hnotin].
    inversion Hnd1 as [|? ? Ha1 Hnd1']; subst.
    rewrite map_app, fold_right_Rplus_app. cbn [map fold_right].
    rewrite (IH (pre ++ post)); try assumption.
    + rewrite map_app, fold_right_Rplus_app. lra.
    + intros y Hy.
      assert (Hy2 : In y (pre ++ a :: post)) by (apply Hincl; now right).
      apply in_app_iff in Hy2. apply in_app_iff.
      destruct Hy2 as [Hy2|[Hy2|Hy2]]; auto.
      subst y. contradiction.
    + intros y Hy Hny. apply Hzero.
      * apply in_app_iff in Hy. apply in_app_iff.
        destruct Hy; [left|right; right]; assumption.
      * intros [->|Hin]; contradiction.
Qed.

(** ** What [entropy_of_counts] evaluates to *)

Lemma comprehension_ok {A B} (f : A -> result B) (g : A -> B) l :
  List.Forall (fun a => f a = Ok (g a)) l ->
  comprehension f l = Ok (map g l).
Proof.
  induction 1 as [|a l Ha _ IH]; cbn [comprehension map]; [reflexivity|].
  rewrite Ha. cbn [result_bind]. rewrite IH. reflexivity.
Qed.

Lemma math_log_pos x : 0 < x -> math_log x = Ok (ln x).
Proof.
  intros Hx. unfold math_log. destruct (Rlt_dec 0 x); [reflexivity|contradiction].
Qed.

Lemma entropy_term_pos p : 0 < p -> entropy_term p = Ok (p * ln p / ln 2).
Proof.
  intros Hp. unfold entropy_term.
  rewrite (math_log_pos p Hp), (math_log_pos 2) by lra. reflexivity.
Qed.

Lemma proportion_pos (n N : nat) :
  (0 < n)%nat -> (0 < N)%nat -> 0 < INR n / INR N.
Proof.
  intros Hn HN. apply Rdiv_lt_0_compat; apply lt_0_INR; assumption.
Qed.

Lemma entropy_of_counts_empty file_size :
  entropy_of_counts file_size [] = Ok 0.
Proof.
  unfold entropy_of_counts. cbn. f_equal.
  replace (- 0 / 8) with 0 by lra. apply Rabs_R0.
Qed.

Lemma entropy_of_counts_eval file_size (c : Counter) :
  (0 < file_size)%nat ->
  List.Forall (fun kn => (0 < snd kn)%nat) c ->
  entropy_of_counts file_size c =
  Ok (Rabs (- counts_plogp file_size c / 8)).
Proof.
  intros HN Hpos. unfold entropy_of_counts.
  rewrite (comprehension_ok _ (fun kn => INR (snd kn) / INR file_size)).
  2:{ apply List.Forall_forall. intros kn _. unfold true_div.
      destruct file_size; [lia|reflexivity]. }
  cbn [result_bind].
  rewrite (comprehension_ok _ (fun p => p * ln p / ln 2)).
  2:{ apply List.Forall_forall. intros p Hp. apply in_map_iff in Hp.
      destruct Hp as (kn & <- & Hkn). apply entropy_term_pos.
      apply proportion_pos; [|assumption].
      rewrite List.Forall_forall in Hpos. now apply Hpos. }
  cbn [result_bind]. rewrite sum_fold_right, map_map. reflexivity.
Qed.

(** ** The Counter of a whole file *)

Lemma counter_wf_nil : counter_wf [].
Proof. split; constructor. Qed.

Lemma counter_of_file_In file k n :
  In (k, n) (counter_update [] file) ->
  n = occurrences k file /\ (0 < n)%nat.
Proof.
  intros Hin.
  destruct (counter_update_wf file [] counter_wf_nil) as [Hnd Hpos].
  split.
  - rewrite <- (counter_get_In _ _ _ Hnd Hin).
    now rewrite counter_update_get.
  - rewrite List.Forall_forall in Hpos. exact (Hpos _ Hin).
Qed.

Lemma counter_of_file_key file k :
  (0 < occurrences k file)%nat -> In k (counter_keys (counter_update [] file)).
Proof.
  intros Hk. apply counter_get_pos_key.
  rewrite counter_update_get. cbn [counter_get]. lia.
Qed.

Lemma counter_of_file_total file :
  counter_total (counter_update [] file) = length file.
Proof. now rewrite counter_update_total. Qed.

Lemma counter_le_total (c : Counter) kn :
  In kn c -> (snd kn <= counter_total c)%nat.
Proof.
  unfold counter_total, list_sum.
  induction c as [|kn' c IH]; cbn [In map fold_right]; [tauto|].
  intros [->|Hin]; [lia|]. specialize (IH Hin). lia.
Qed.

Lemma proportions_sum (c : Counter) (N : nat) :
  fold_right Rplus 0 (map (fun kn => INR (snd kn) / INR N) c) =
  INR (counter_total c) / INR N.
Proof.
  unfold counter_total, list_sum.
  induction c as [|kn c IH]; cbn [map fold_right].
  - cbn [INR]. lra.
  - rewrite IH, plus_INR. lra.
Qed.

(** ** Bounds on the entropy of a well-formed Counter *)

Section Bounds.

Variable c : Counter.
Variable N : nat.
Hypothesis c_wf : counter_wf c.
Hypothesis N_total : counter_total c = N.
Hypothesis N_pos : (0 < N)%nat.

Lemma counts_plogp_scaled :
  counts_plogp N c =
  fold_right Rplus 0 (map (fun p => p * ln p) (proportions N c)) * / ln 2.
Proof.
  unfold counts_plogp, proportions.
  rewrite <- fold_right_Rplus_scal, !map_map. reflexivity.
Qed.

Lemma proportions_range : List.Forall (fun p => 0 < p <= 1) (proportions N c).
Proof.
  unfold proportions. apply List.Forall_forall. intros p Hp.
  apply in_map_iff in Hp. destruct Hp as (kn & <- & Hkn).
  destruct c_wf as [_ Hpos]. rewrite List.Forall_forall in Hpos.
  pose proof (Hpos _ Hkn) as Hn. pose proof (counter_le_total _ _ Hkn) as Hle.
  rewrite N_total in Hle.
  assert (HN : 0 < INR N) by now apply lt_0_INR.
  split; [now apply proportion_pos|].
  apply (Rmult_le_reg_r (INR N)); [assumption|].
  replace (INR (snd kn) / INR N * INR N) with (INR (snd kn)) by (field; lra).
  rewrite Rmult_1_l. now apply le_INR.
Qed.

Lemma proportions_sum_1 : fold_right Rplus 0 (proportions N c) = 1.
Proof.
  unfold proportions. rewrite proportions_sum, N_total.
  assert (0 < INR N) by now apply lt_0_INR. field. lra.
Qed.

Lemma counts_plogp_nonpos : counts_plogp N c <= 0.
Proof.
  rewrite counts_plogp_scaled.
  pose proof (plogp_sum_nonpos (proportions N c) proportions_range) as H.
  pose proof ln_2_pos as H2. apply Rinv_0_lt_compat in H2. nra.
Qed.

Lemma counts_plogp_lower : - 8 <= counts_plogp N c.
Proof.
  rewrite counts_plogp_scaled.
  assert (Hpos : List.Forall (fun p => 0 < p) (proportions N c)).
  { eapply List.Forall_impl; [|exact proportions_range]. cbn. intros p Hp. tauto. }
  pose proof (plogp_sum_upper (proportions N c) Hpos) as H.
  rewrite proportions_sum_1 in H.
  assert (Hlen : INR (length (proportions N c)) <= 256).
  { unfold proportions. rewrite length_map.
    replace 256 with (INR 256) by (cbn [INR]; lra).
    apply le_INR. destruct c_wf as [Hnd _].
    unfold counter_keys in Hnd.
    rewrite <- (length_map fst). now apply distinct_bytes_length. }
  pose proof ln_2_pos as H2.
  set (T := fold_right Rplus 0 (map (fun p => p * ln p) (proportions N c))) in *.
  assert (HT : - (8 * ln 2) <= T) by lra.
  apply (Rmult_le_reg_r (ln 2)); [assumption|].
  replace (T * / ln 2 * ln 2) with T by (field; lra). lra.
Qed.

Lemma entropy_of_counts_bounded :
  entropy_of_counts N c = Ok (- counts_plogp N c / 8) /\
  0 <= - counts_plogp N c / 8 <= 1.
Proof.
  pose proof counts_plogp_nonpos. pose proof counts_plogp_lower.
  destruct c_wf as [_ Hpos].
  rewrite (entropy_of_counts_eval N c N_pos Hpos).
  rewrite Rabs_right by lra. split; [reflexivity|lra].
Qed.

End Bounds.

(** ** The code's sum against the specification's *)

Lemma shannon_term_absent file b :
  occurrences b file = O -> shannon_term file b = 0.
Proof. unfold shannon_term. now intros ->. Qed.

Lemma counts_plogp_shannon file :
  counts_plogp (length file) (counter_update [] file) =
  fold_right Rplus 0 (map (shannon_term file) all_bytes).
Proof.
  set (c := counter_update [] file).
  transitivity (fold_right Rplus 0 (map (shannon_term file) (counter_keys c))).
  - unfold counts_plogp, counter_keys. rewrite map_map. f_equal.
    apply map_ext_in. intros [k n] Hin.
    destruct (counter_of_file_In file k n Hin) as [Hn Hpos].
    cbn [fst snd]. unfold shannon_term. rewrite <- Hn.
    destruct n as [|n']; [lia|]. unfold log2, Rdiv. ring.
  - destruct (counter_update_wf file [] counter_wf_nil) as [Hnd _].
    apply sum_on_support.
    + exact Hnd.
    + exact all_bytes_NoDup.
    + intros b _. apply all_bytes_complete.
    + intros b _ Hb. apply shannon_term_absent.
      destruct (occurrences b file) eqn:E; [reflexivity|].
      exfalso. apply Hb. apply counter_of_file_key. lia.
Qed.

Lemma measure_spec_nil : measure_spec [] = 0.
Proof.
  unfold measure_spec, shannon. rewrite sum_zero; [lra|].
  intros b _. now apply shannon_term_absent.
Qed.

(** On a file that exists and can be read, [file_entropy] returns the
    specified score, which lies between 0 and 1. *)
Lemma file_entropy_holds w filepath file :
  holds w filepath file ->
  file_entropy w filepath = Ok (measure_spec file) /\
  0 <= measure_spec file <= 1.
Proof.
  intros (Hex & Hsize & Hopen). unfold file_entropy.
  rewrite Hex, Hsize, Hopen. cbn [negb result_bind].
  rewrite read_loop_all.
  destruct file as [|x file].
  - cbn [counter_update fold_left]. rewrite entropy_of_counts_empty.
    rewrite measure_spec_nil. split; [reflexivity|lra].
  - set (f := x :: file).
    assert (Hlen : (0 < length f)%nat) by (cbn; lia).
    destruct (entropy_of_counts_bounded (counter_update [] f) (length f)
                (counter_update_wf f [] counter_wf_nil)
                (counter_of_file_total f) Hlen) as [Heq Hrange].
    rewrite counts_plogp_shannon in Heq, Hrange.
    unfold measure_spec, shannon. now rewrite Heq.
Qed.

Lemma file_entropy_missing w filepath :
  os_path_exists w filepath = false -> file_entropy w filepath = Ok 0.
Proof. intros Hex. unfold file_entropy. now rewrite Hex. Qed.

(** C2, amended. For every path that names nothing, or a file that can be
    read and whose size, as [os.stat] reports it, is the number of bytes
    then read, [file_entropy] returns a number between 0 and 1 and does not
    raise: exactly 0.0 when the file does not exist or is empty, and
    otherwise the normalised Shannon entropy of the byte distribution
    ([measure_spec]: minus the sum of p_b * log2 p_b over the byte values
    that occur, divided by 8). *)
Theorem file_entropy_contract (w : World) (filepath : string)
  (content : option (list byte)) :
  observed w filepath content ->
  exists score,
    file_entropy w filepath = Ok score /\
    0 <= score <= 1 /\
    (content = None \/ content = Some [] -> score = 0) /\
    (forall file, content = Some file -> score = measure_spec file).
Proof.
  destruct content as [file|]; cbn [observed]; intros H.
  - destruct (file_entropy_holds _ _ _ H) as [Heq Hrange].
    exists (measure_spec file). repeat split; try tauto.
    + intros [Hc|Hc]; [discriminate|]. injection Hc as ->.
      apply measure_spec_nil.
    + intros file' Hc. now injection Hc as ->.
  - exists 0. rewrite (file_entropy_missing _ _ H).
    repeat split; try lra. intros file Hc. discriminate.
Qed.

Lemma file_entropy_contract_witness :
  exists score,
    file_entropy (dir_world "/d" [("f", ([xA; xB], None))]) "/d/f" = Ok score /\
    0 <= score <= 1 /\
    (Some [xA; xB] = None \/ Some [xA; xB] = Some [] -> score = 0) /\
    (forall file, Some [xA; xB] = Some file -> score = measure_spec file).
Proof.
  apply (file_entropy_contract _ "/d/f" (Some [xA; xB])).
  cbn [observed]. repeat split.
Defined.

Lemma ln_8 : ln 8 = 3 * ln 2.
Proof.
  replace 8 with (2 ^ 3) by lra.
  rewrite ln_pow by lra. cbn [INR]. lra.
Qed.

(** Outside those paths the contract fails: a file that exists and cannot
    be opened makes [file_entropy] raise, a size read as 0 before the file
    was written makes it raise ZeroDivisionError, and a size read as 1
    before seven more equal bytes were written gives the score 3. *)
Lemma file_entropy_contract_counterexample :
  (os_path_exists (unreadable text_world) "/d/f" = true /\
   file_entropy (unreadable text_world) "/d/f" = Raise OSError) /\
  (os_stat_st_size stale_world "/d/f" = Ok O /\
   file_entropy stale_world "/d/f" = Raise ZeroDivisionError) /\
  (file_entropy grown_world "/d/f" = Ok 3 /\ ~ 0 <= 3 <= 1).
Proof.
  split; [|split].
  - split; reflexivity.
  - split; [reflexivity|]. unfold file_entropy.
    change (os_path_exists stale_world "/d/f") with true.
    change (os_stat_st_size stale_world "/d/f") with (@Ok nat O).
    change (open_rb stale_world "/d/f") with (Ok [xA; xB]).
    cbn [negb result_bind]. rewrite read_loop_all. reflexivity.
  - split; [|lra]. unfold file_entropy.
    change (os_path_exists grown_world "/d/f") with true.
    change (os_stat_st_size grown_world "/d/f") with (@Ok nat 1%nat).
    change (open_rb grown_world "/d/f") with (Ok (repeat xA 8)).
    cbn [negb result_bind]. rewrite read_loop_all.
    change (counter_update [] (repeat xA 8)) with [(xA, 8%nat)].
    rewrite entropy_of_counts_eval by (try lia; repeat constructor; cbn; lia).
    f_equal. unfold counts_plogp. cbn [map fold_right snd].
    replace (INR 8 / INR 1) with 8 by (cbn [INR]; lra).
    rewrite ln_8. pose proof ln_2_pos as H2.
    replace (- (8 * (3 * ln 2) / ln 2 + 0) / 8) with (- (3)) by (field; lra).
    unfold Rabs. destruct (Rcase_abs (- (3))); lra.
Qed.

(** ** Extreme distributions *)

Lemma indicator_sum_absent (x : byte) l :
  ~ In x l ->
  list_sum (map (fun b => if Byte.byte_eq_dec x b then 1%nat else 0%nat) l) = 0%nat.
Proof.
  unfold list_sum.
  induction l as [|b l IH]; intros Hx; cbn [map fold_right]; [reflexivity|].
  destruct (Byte.byte_eq_dec x b) as [->|_].
  - exfalso. apply Hx. now left.
  - rewrite IH; [reflexivity|]. intros Hin. apply Hx. now right.
Qed.

Lemma indicator_sum_present (x : byte) l :
  List.NoDup l -> In x l ->
  list_sum (map (fun b => if Byte.byte_eq_dec x b then 1%nat else 0%nat) l) = 1%nat.
Proof.
  induction 1 as [|b l Hb Hnd IH]; intros Hx; [destruct Hx|].
  change (list_sum (map ?f (b :: l))) with (f b + list_sum (map f l))%nat.
  cbn beta. destruct (Byte.byte_eq_dec x b) as [->|Hne].
  - now rewrite indicator_sum_absent.
  - destruct Hx as [Hx|Hx]; [congruence|]. now rewrite IH.
Qed.

Lemma list_sum_map_add {A} (f g : A -> nat) l :
  list_sum (map (fun a => (f a + g a)%nat) l) =
  (list_sum (map f l) + list_sum (map g l))%nat.
Proof.
  unfold list_sum.
  induction l as [|a l IH]; cbn [map fold_right]; [reflexivity|].
  rewrite IH. lia.
Qed.

(** The occurrences of the 256 byte values add up to the file's length. *)
Lemma length_occurrences file :
  length file = list_sum (map (fun b => occurrences b file) all_bytes).
Proof.
  induction file as [|x file IH].
  - cbn [length]. unfold occurrences. cbn [count_occ].
    symmetry. unfold list_sum.
    induction all_bytes as [|b l IHl]; cbn [map fold_right]; [reflexivity|].
    now rewrite IHl.
  - cbn [length]. rewrite IH.
    transitivity
      (list_sum (map (fun b => occurrences b file) all_bytes) +
       list_sum (map (fun b => if Byte.byte_eq_dec x b then 1 else 0)
                   all_bytes))%nat.
    + rewrite (indicator_sum_present x all_bytes all_bytes_NoDup
                 (all_bytes_complete x)). lia.
    + rewrite <- list_sum_map_add. f_equal.
      apply map_ext. intros b. unfold occurrences. cbn [count_occ].
      destruct (Byte.byte_eq_dec x b); lia.
Qed.

Lemma sum_const {A} (v : R) (l : list A) :
  fold_right Rplus 0 (map (fun _ => v) l) = INR (length l) * v.
Proof.
  induction l as [|a l IH]; [cbn; lra|].
  cbn [map fold_right]. rewrite IH.
  change (length (a :: l)) with (S (length l)). rewrite S_INR. lra.
Qed.

Lemma occurrences_same b file :
  (forall x, In x file -> x = b) -> occurrences b file = length file.
Proof.
  unfold occurrences.
  induction file as [|x file IH]; intros Hall; [reflexivity|].
  cbn [count_occ length].
  destruct (Byte.byte_eq_dec x b) as [_|Hne].
  - rewrite IH; [reflexivity|]. intros y Hy. apply Hall. now right.
  - exfalso. apply Hne, Hall. now left.
Qed.

Lemma occurrences_other b b' file :
  (forall x, In x file -> x = b) -> b' <> b -> occurrences b' file = O.
Proof.
  intros Hall Hne. unfold occurrences. apply count_occ_not_In.
  intros Hin. apply Hne. now apply Hall.
Qed.

Lemma measure_spec_same b file :
  file <> [] -> (forall x, In x file -> x = b) -> measure_spec file = 0.
Proof.
  intros Hne Hall. unfold measure_spec, shannon.
  rewrite sum_zero; [lra|]. intros b' _.
  destruct (Byte.byte_eq_dec b' b) as [->|Hb].
  - unfold shannon_term. rewrite (occurrences_same b file Hall).
    destruct file as [|x file]; [contradiction|].
    change (length (x :: file)) with (S (length file)).
    cbn match.
    assert (Hlen : 0 < INR (S (length file))) by (apply lt_0_INR; lia).
    replace (INR (S (length file)) / INR (S (length file))) with 1
      by (field; lra).
    unfold log2. rewrite ln_1. lra.
  - apply shannon_term_absent. now apply (occurrences_other b).
Qed.

Lemma log2_inv_256 : log2 (/ 256) = - 8.
Proof.
  unfold log2. rewrite ln_Rinv by lra. rewrite ln_256.
  pose proof ln_2_pos. field. lra.
Qed.

Lemma measure_spec_uniform k file :
  (0 < k)%nat -> (forall b, occurrences b file = k) -> measure_spec file = 1.
Proof.
  intros Hk Hocc.
  assert (Hlen : length file = (256 * k)%nat).
  { rewrite length_occurrences.
    rewrite (map_ext _ (fun _ => k)) by exact Hocc.
    rewrite <- all_bytes_length. unfold list_sum.
    induction all_bytes as [|b l IHl]; cbn [map fold_right length]; [reflexivity|].
    rewrite IHl. lia. }
  unfold measure_spec, shannon.
  rewrite (map_ext _ (fun _ => / 256 * log2 (/ 256))).
  - rewrite sum_const, all_bytes_length, log2_inv_256.
    replace (INR 256) with 256 by (cbn [INR]; lra). lra.
  - intros b. unfold shannon_term. rewrite Hocc, Hlen.
    destruct k as [|k']; [lia|].
    assert (HK : 0 < INR (S k')) by (apply lt_0_INR; lia).
    replace (INR (S k') / INR (256 * S k')) with (/ 256).
    + reflexivity.
    + rewrite mult_INR. replace (INR 256) with 256 by (cbn [INR]; lra).
      field. lra.
Qed.

(** C7. A non-empty file whose bytes are all the same value scores exactly
    0.0, and a file in which each of the 256 byte values occurs the same
    number of times scores 1.0. *)
Theorem file_entropy_extremes (w : World) (filepath : string)
  (file : list byte) :
  holds w filepath file ->
  (forall b, file <> [] -> (forall x, In x file -> x = b) ->
     file_entropy w filepath = Ok 0) /\
  (forall k, (0 < k)%nat -> (forall b, occurrences b file = k) ->
     file_entropy w filepath = Ok 1).
Proof.
  intros H. destruct (file_entropy_holds _ _ _ H) as [Heq _]. split.
  - intros b Hne Hall. now rewrite Heq, (measure_spec_same b).
  - intros k Hk Hocc. now rewrite Heq, (measure_spec_uniform k).
Qed.

Lemma occurrences_all_bytes (b : byte) : occurrences b all_bytes = 1%nat.
Proof. destruct b; vm_compute; reflexivity. Qed.

Lemma file_entropy_extremes_witness :
  file_entropy extremes_world "/d/same" = Ok 0 /\
  file_entropy extremes_world "/d/all" = Ok 1.
Proof.
  assert (Hsame : holds extremes_world "/d/same" [xA; xA; xA])
    by (repeat split).
  assert (Hall : holds extremes_world "/d/all" all_bytes)
    by (repeat split).
  split.
  - apply (proj1 (file_entropy_extremes _ _ _ Hsame) xA).
    + discriminate.
    + cbn [In]. intuition congruence.
  - apply (proj2 (file_entropy_extremes _ _ _ Hall) 1%nat).
    + lia.
    + exact occurrences_all_bytes.
Defined.

(** ** The event handlers *)

(** Running a handler step by step. *)

Lemma bind_Ok {A B} (m : M A) (k : A -> M B) s a s' :
  m s = (Ok a, s') -> bind m k s = k a s'.
Proof. unfold bind. now intros ->. Qed.

Lemma bind_Raise {A B} (m : M A) (k : A -> M B) s e s' :
  m s = (Raise e, s') -> bind m k s = (Raise e, s').
Proof. unfold bind. now intros ->. Qed.

Lemma contains_tracked filepath s v :
  file_infos s !! filepath = Some v -> contains filepath s = (Ok true, s).
Proof.
  intros H. unfold contains. rewrite bool_decide_eq_true_2; eauto.
Qed.

Lemma contains_untracked filepath s :
  file_infos s !! filepath = None -> contains filepath s = (Ok false, s).
Proof.
  intros H. unfold contains. rewrite bool_decide_eq_false_2; [reflexivity|].
  rewrite H. intros [? ?]. discriminate.
Qed.

Lemma getitem_tracked filepath s v :
  file_infos s !! filepath = Some v -> getitem filepath s = (Ok v, s).
Proof. intros H. unfold getitem. now rewrite H. Qed.

Lemma delitem_tracked filepath s v :
  file_infos s !! filepath = Some v ->
  delitem filepath s = (Ok tt, after s (delete filepath (file_infos s)) []).
Proof.
  intros H. unfold delitem, after. now rewrite H, app_nil_r.
Qed.

Lemma ret_run {A} (a : A) s : ret a s = (Ok a, s).
Proof. reflexivity. Qed.

Lemma lift_run {A} (r : result A) s : lift r s = (r, s).
Proof. reflexivity. Qed.

Lemma logging_run l m s :
  logging l m s =
  (Ok tt, after s (file_infos s) [{| levelname := l; msg := m |}]).
Proof. reflexivity. Qed.

Lemma setitem_run filepath v s :
  setitem filepath v s = (Ok tt, after s (<[filepath := v]> (file_infos s)) []).
Proof. unfold setitem, after. now rewrite app_nil_r. Qed.

Lemma after_after s infos1 l1 infos2 l2 :
  after (after s infos1 l1) infos2 l2 = after s infos2 (l1 ++ l2).
Proof. unfold after. cbn [log file_infos]. now rewrite app_assoc. Qed.

Lemma entropy_alarm_iff filepath old_entropy new_entropy :
  List.Exists is_entropy_warning (entropy_alarm filepath old_entropy new_entropy)
  <-> new_entropy - old_entropy > ENTROPY_LIMIT.
Proof.
  unfold entropy_alarm.
  destruct (Rgt_dec (new_entropy - old_entropy) ENTROPY_LIMIT) as [Hgt|Hle].
  - split; [tauto|]. intros _. constructor. split; [reflexivity|]. eauto.
  - split; [|tauto]. intros H. inversion H.
Qed.

Lemma mime_alarm_iff filepath old_mime new_mime :
  List.Exists is_mime_warning (mime_alarm filepath old_mime new_mime)
  <-> new_mime <> old_mime.
Proof.
  unfold mime_alarm. destruct (decide (new_mime = old_mime)) as [Heq|Hne].
  - split; [|tauto]. intros H. inversion H.
  - split; [tauto|]. intros _. constructor. split; [reflexivity|]. eauto.
Qed.

Lemma entropy_alarm_not_mime filepath old_entropy new_entropy :
  ~ List.Exists is_mime_warning (entropy_alarm filepath old_entropy new_entropy).
Proof.
  unfold entropy_alarm. intros H.
  destruct (Rgt_dec _ _); inversion H as [? ? [_ (? & ? & ? & Hm)]|? ? Hn]; subst.
  - discriminate.
  - inversion Hn.
Qed.

Lemma mime_alarm_not_entropy filepath old_mime new_mime :
  ~ List.Exists is_entropy_warning (mime_alarm filepath old_mime new_mime).
Proof.
  unfold mime_alarm. intros H.
  destruct (decide _); inversion H as [? ? [_ (? & ? & Hm)]|? ? Hn]; subst.
  - discriminate.
  - inversion Hn.
Qed.

(** [__update_info] on a tracked path whose file exists and was measured:
    the anomaly rule is applied to the old baseline, then the new baseline
    replaces it. *)
Lemma update_info_measured w filepath s old new_entropy new_mime :
  file_infos s !! filepath = Some old ->
  os_path_exists w filepath = true ->
  file_entropy w filepath = Ok new_entropy ->
  __get_mime w filepath = Ok new_mime ->
  __update_info w filepath s =
  (Ok tt,
   after s
     (<[filepath := {| entropy := new_entropy; mime := new_mime |}]>
        (file_infos s))
     (entropy_alarm filepath (entropy old) new_entropy ++
      mime_alarm filepath (mime old) new_mime)).
Proof.
  intros Hold Hex He Hm. unfold __update_info.
  rewrite (bind_Ok _ _ _ _ _ (contains_tracked _ _ _ Hold)). cbn [negb].
  rewrite Hex. cbn [negb]. rewrite He, Hm.
  rewrite !(bind_Ok _ _ _ _ _ (lift_run _ _)).
  rewrite (bind_Ok _ _ _ _ _ (getitem_tracked _ _ _ Hold)). cbv zeta.
  unfold entropy_alarm, mime_alarm.
  destruct (Rgt_dec (new_entropy - entropy old) ENTROPY_LIMIT).
  - rewrite (bind_Ok _ _ _ _ _ (logging_run _ _ _)).
    rewrite (bind_Ok _ _ _ _ _
               (getitem_tracked filepath (after s (file_infos s) _) old Hold)).
    destruct (decide (new_mime = mime old)).
    + rewrite (bind_Ok _ _ _ _ _ (ret_run _ _)), setitem_run, after_after.
      reflexivity.
    + rewrite (bind_Ok _ _ _ _ _ (logging_run _ _ _)), setitem_run.
      rewrite !after_after. reflexivity.
  - rewrite (bind_Ok _ _ _ _ _ (ret_run _ _)).
    rewrite (bind_Ok _ _ _ _ _ (getitem_tracked _ _ old Hold)).
    destruct (decide (new_mime = mime old)).
    + rewrite (bind_Ok _ _ _ _ _ (ret_run _ _)), setitem_run. reflexivity.
    + rewrite (bind_Ok _ _ _ _ _ (logging_run _ _ _)), setitem_run.
      rewrite !after_after. reflexivity.
Qed.

Lemma info_not_entropy_warning m : ~ is_entropy_warning (info m).
Proof. intros [H _]. discriminate. Qed.

Lemma info_not_mime_warning m : ~ is_mime_warning (info m).
Proof. intros [H _]. discriminate. Qed.

Lemma on_modified_measured w src_path s old new_entropy new_mime :
  file_infos s !! src_path = Some old ->
  os_path_exists w src_path = true ->
  file_entropy w src_path = Ok new_entropy ->
  __get_mime w src_path = Ok new_mime ->
  on_modified w src_path s =
  (Ok tt,
   after s
     (<[src_path := {| entropy := new_entropy; mime := new_mime |}]>
        (file_infos s))
     (info (MsgModified src_path) ::
      entropy_alarm src_path (entropy old) new_entropy ++
      mime_alarm src_path (mime old) new_mime)).
Proof.
  intros Hold Hex He Hm. unfold on_modified.
  rewrite (bind_Ok _ _ _ _ _ (logging_run _ _ _)).
  rewrite (update_info_measured w src_path _ old new_entropy new_mime);
    try assumption.
  now rewrite after_after.
Qed.

(** C1. On a Modified event for a tracked path whose file still exists and
    is measured as (new_entropy, new_mime): an entropy warning is logged if
    and only if new_entropy - old entropy > 0.01, a type-change warning is
    logged if and only if new_mime differs from the old type, each
    independently of the other, and in every case the entry of the path is
    replaced by the new measurement. *)
Theorem on_modified_anomaly_rule (w : World) (src_path : string) (s : State)
  (old : FileInfo) (new_entropy : R) (new_mime : string) :
  file_infos s !! src_path = Some old ->
  os_path_exists w src_path = true ->
  file_entropy w src_path = Ok new_entropy ->
  __get_mime w src_path = Ok new_mime ->
  exists emitted,
    on_modified w src_path s =
    (Ok tt,
     after s
       (<[src_path := {| entropy := new_entropy; mime := new_mime |}]>
          (file_infos s))
       emitted) /\
    (List.Exists is_entropy_warning emitted <->
     new_entropy - entropy old > 0.01) /\
    (List.Exists is_mime_warning emitted <-> new_mime <> mime old).
Proof.
  intros Hold Hex He Hm. eexists. split.
  - apply (on_modified_measured w src_path s old); assumption.
  - rewrite !List.Exists_cons, !List.Exists_app.
    pose proof (info_not_entropy_warning (MsgModified src_path)).
    pose proof (info_not_mime_warning (MsgModified src_path)).
    pose proof (entropy_alarm_iff src_path (entropy old) new_entropy) as He1.
    pose proof (mime_alarm_iff src_path (mime old) new_mime) as Hm1.
    pose proof (entropy_alarm_not_mime src_path (entropy old) new_entropy).
    pose proof (mime_alarm_not_entropy src_path (mime old) new_mime).
    unfold ENTROPY_LIMIT in He1. tauto.
Qed.

(** The examples of the specification: 0.10 to 0.50 with the same type
    logs the entropy warning alone, a new type with the same entropy logs
    the type warning alone, and both changes log both. *)
Example entropy_jump_alone :
  entropy_alarm "p" 0.10 0.50 ++ mime_alarm "p" "text/plain" "text/plain" =
  [warning (MsgEntropy "p" ((0.50 - 0.10) * 100))].
Proof.
  unfold entropy_alarm, mime_alarm, ENTROPY_LIMIT.
  destruct (Rgt_dec (0.50 - 0.10) 0.01) as [_|Hn]; [|exfalso; apply Hn; lra].
  reflexivity.
Qed.

Example type_change_alone :
  entropy_alarm "p" 0.10 0.10 ++
  mime_alarm "p" "text/plain" "application/octet-stream" =
  [warning (MsgMime "p" "text/plain" "application/octet-stream")].
Proof.
  unfold entropy_alarm, mime_alarm, ENTROPY_LIMIT.
  destruct (Rgt_dec (0.10 - 0.10) 0.01) as [Hgt|_]; [lra|].
  reflexivity.
Qed.

Example both_alarms :
  entropy_alarm "p" 0.10 0.50 ++
  mime_alarm "p" "text/plain" "application/octet-stream" =
  [warning (MsgEntropy "p" ((0.50 - 0.10) * 100));
   warning (MsgMime "p" "text/plain" "application/octet-stream")].
Proof.
  unfold entropy_alarm, mime_alarm, ENTROPY_LIMIT.
  destruct (Rgt_dec (0.50 - 0.10) 0.01) as [_|Hn]; [|exfalso; apply Hn; lra].
  reflexivity.
Qed.

Example entropy_drop_silent :
  entropy_alarm "p" 0.50 0.10 = [].
Proof.
  unfold entropy_alarm, ENTROPY_LIMIT.
  destruct (Rgt_dec (0.10 - 0.50) 0.01) as [Hgt|_]; [lra|reflexivity].
Qed.

Lemma text_world_holds : holds text_world "/d/f" [xA; xB].
Proof. repeat split. Qed.

Lemma on_modified_anomaly_rule_witness :
  exists emitted,
    on_modified text_world "/d/f" text_state =
    (Ok tt,
     after text_state
       (<["/d/f" := {| entropy := measure_spec [xA; xB];
                       mime := "text/plain" |}]>
          (file_infos text_state))
       emitted) /\
    (List.Exists is_entropy_warning emitted <->
     measure_spec [xA; xB] - 0 > 0.01) /\
    (List.Exists is_mime_warning emitted <-> "text/plain" <> "text/plain").
Proof.
  apply (on_modified_anomaly_rule text_world "/d/f" text_state
           {| entropy := 0; mime := "text/plain" |}
           (measure_spec [xA; xB]) "text/plain").
  - reflexivity.
  - reflexivity.
  - exact (proj1 (file_entropy_holds _ _ _ text_world_holds)).
  - reflexivity.
Defined.

(** *** What each handler evaluates to *)

Lemma on_deleted_run src_path s :
  on_deleted src_path s =
  (Ok tt, after s (delete src_path (file_infos s)) [info (MsgDeleted src_path)]).
Proof.
  unfold on_deleted. rewrite (bind_Ok _ _ _ _ _ (logging_run _ _ _)).
  destruct (file_infos s !! src_path) as [v|] eqn:Hv.
  - rewrite (bind_Ok _ _ _ _ _
               (contains_tracked src_path (after s (file_infos s) _) v Hv)).
    cbn [negb].
    rewrite (delitem_tracked src_path (after s (file_infos s) _) v Hv).
    now rewrite after_after.
  - rewrite (bind_Ok _ _ _ _ _
               (contains_untracked src_path (after s (file_infos s) _) Hv)).
    cbn [negb]. rewrite ret_run. now rewrite delete_id.
Qed.

Lemma update_info_untracked w filepath s :
  file_infos s !! filepath = None -> __update_info w filepath s = (Ok tt, s).
Proof.
  intros Hv. unfold __update_info.
  now rewrite (bind_Ok _ _ _ _ _ (contains_untracked _ _ Hv)).
Qed.

Lemma update_info_missing w filepath s old :
  file_infos s !! filepath = Some old ->
  os_path_exists w filepath = false ->
  __update_info w filepath s =
  (Ok tt, after s (delete filepath (file_infos s)) []).
Proof.
  intros Hv Hex. unfold __update_info.
  rewrite (bind_Ok _ _ _ _ _ (contains_tracked _ _ _ Hv)). cbn [negb].
  rewrite Hex. cbn [negb]. now apply delitem_tracked with old.
Qed.

Lemma update_info_entropy_raises w filepath s old e :
  file_infos s !! filepath = Some old ->
  os_path_exists w filepath = true ->
  file_entropy w filepath = Raise e ->
  __update_info w filepath s = (Raise e, s).
Proof.
  intros Hv Hex He. unfold __update_info.
  rewrite (bind_Ok _ _ _ _ _ (contains_tracked _ _ _ Hv)). cbn [negb].
  rewrite Hex. cbn [negb]. rewrite He.
  now rewrite (bind_Raise _ _ _ _ _ (lift_run _ _)).
Qed.

Lemma update_info_mime_raises w filepath s old new_entropy e :
  file_infos s !! filepath = Some old ->
  os_path_exists w filepath = true ->
  file_entropy w filepath = Ok new_entropy ->
  __get_mime w filepath = Raise e ->
  __update_info w filepath s = (Raise e, s).
Proof.
  intros Hv Hex He Hm. unfold __update_info.
  rewrite (bind_Ok _ _ _ _ _ (contains_tracked _ _ _ Hv)). cbn [negb].
  rewrite Hex. cbn [negb]. rewrite He, Hm.
  rewrite (bind_Ok _ _ _ _ _ (lift_run _ _)).
  now rewrite (bind_Raise _ _ _ _ _ (lift_run _ _)).
Qed.

Lemma on_created_run w src_path s :
  on_created w src_path s =
  match probe w src_path with
  | Ok new =>
      (Ok tt,
       after s (<[src_path := new]> (file_infos s)) [info (MsgCreated src_path)])
  | Raise e => (Raise e, after s (file_infos s) [info (MsgCreated src_path)])
  end.
Proof.
  unfold on_created. rewrite (bind_Ok _ _ _ _ _ (logging_run _ _ _)).
  destruct (probe w src_path) as [new|e].
  - rewrite (bind_Ok _ _ _ _ _ (lift_run _ _)), setitem_run.
    now rewrite after_after.
  - now rewrite (bind_Raise _ _ _ _ _ (lift_run _ _)).
Qed.

Lemma on_moved_tracked w src_path dest_path s old :
  file_infos s !! src_path = Some old ->
  on_moved w src_path dest_path s =
  __update_info w dest_path
    (after s (delete src_path (<[dest_path := old]> (file_infos s)))
       [info (MsgMoved src_path dest_path)]).
Proof.
  intros Hv. unfold on_moved.
  rewrite (bind_Ok _ _ _ _ _ (logging_run _ _ _)).
  rewrite (bind_Ok _ _ _ _ _
             (contains_tracked src_path (after s (file_infos s) _) old Hv)).
  rewrite (bind_Ok _ _ _ _ _
             (getitem_tracked src_path (after s (file_infos s) _) old Hv)).
  rewrite (bind_Ok _ _ _ _ _ (setitem_run _ _ _)).
  assert (Hsrc : is_Some (<[dest_path := old]> (file_infos s) !! src_path)).
  { destruct (decide (dest_path = src_path)) as [->|Hne].
    - rewrite lookup_insert_eq. eauto.
    - rewrite lookup_insert_ne by assumption. eauto. }
  destruct Hsrc as [v Hsrc].
  rewrite (bind_Ok _ _ _ _ _
             (delitem_tracked src_path (after (after s _ _) _ _) v Hsrc)).
  now rewrite !after_after, !app_nil_r.
Qed.

Lemma on_moved_untracked w src_path dest_path s :
  file_infos s !! src_path = None ->
  on_moved w src_path dest_path s =
  match probe w dest_path with
  | Ok new =>
      (Ok tt,
       after s (<[dest_path := new]> (file_infos s))
         [info (MsgMoved src_path dest_path)])
  | Raise e =>
      (Raise e, after s (file_infos s) [info (MsgMoved src_path dest_path)])
  end.
Proof.
  intros Hv. unfold on_moved.
  rewrite (bind_Ok _ _ _ _ _ (logging_run _ _ _)).
  rewrite (bind_Ok _ _ _ _ _
             (contains_untracked src_path (after s (file_infos s) _) Hv)).
  destruct (probe w dest_path) as [new|e].
  - rewrite (bind_Ok _ _ _ _ _ (lift_run _ _)), setitem_run.
    now rewrite after_after.
  - now rewrite (bind_Raise _ _ _ _ _ (lift_run _ _)).
Qed.

Lemma on_modified_untracked w src_path s :
  file_infos s !! src_path = None ->
  on_modified w src_path s =
  (Ok tt, after s (file_infos s) [info (MsgModified src_path)]).
Proof.
  intros Hv. unfold on_modified.
  rewrite (bind_Ok _ _ _ _ _ (logging_run _ _ _)).
  now rewrite update_info_untracked.
Qed.

(** C6. A Deleted event returns normally and removes the path from the dict
    when it is tracked; when it is not, the dict is unchanged. A Modified
    event for the same path handled next, in any world, returns normally
    and leaves the dict as it is, with the path still absent. *)
Theorem deleted_then_modified (w : World) (src_path : string) (s : State) :
  let s1 := snd (on_deleted src_path s) in
  let s2 := snd (on_modified w src_path s1) in
  fst (on_deleted src_path s) = Ok tt /\
  file_infos s1 =
    match file_infos s !! src_path with
    | Some _ => delete src_path (file_infos s)
    | None => file_infos s
    end /\
  file_infos s1 !! src_path = None /\
  fst (on_modified w src_path s1) = Ok tt /\
  file_infos s2 = file_infos s1 /\
  file_infos s2 !! src_path = None.
Proof.
  cbv zeta. rewrite on_deleted_run. cbn [fst snd].
  assert (Hgone :
    file_infos (after s (delete src_path (file_infos s))
                  [info (MsgDeleted src_path)]) !! src_path = None)
    by apply lookup_delete_eq.
  rewrite (on_modified_untracked w _ _ Hgone). cbn [fst snd after file_infos].
  repeat split; try apply lookup_delete_eq.
  destruct (file_infos s !! src_path) eqn:Hv; [reflexivity|].
  now apply delete_id.
Qed.

(** C10. A Created event compares nothing: whatever the dict holds for the
    path, the handler logs one INFO record and no warning, and the fresh
    measurement, when there is one, overwrites the entry. A Deleted event
    followed by a Created event for the same path therefore replaces the
    baseline with two INFO records and no warning. *)
Theorem on_created_overwrites (w : World) (src_path : string) (s : State) :
  let s1 := snd (on_created w src_path s) in
  let s2 := snd (on_created w src_path (snd (on_deleted src_path s))) in
  log s1 = log s ++ [info (MsgCreated src_path)] /\
  match probe w src_path with
  | Ok new =>
      fst (on_created w src_path s) = Ok tt /\
      file_infos s1 = <[src_path := new]> (file_infos s) /\
      file_infos s2 = <[src_path := new]> (file_infos s)
  | Raise e =>
      fst (on_created w src_path s) = Raise e /\
      file_infos s1 = file_infos s
  end /\
  log s2 = log s ++ [info (MsgDeleted src_path); info (MsgCreated src_path)].
Proof.
  cbv zeta. rewrite on_deleted_run. cbn [snd]. rewrite !on_created_run.
  destruct (probe w src_path) as [new|e]; cbn [fst snd after file_infos log].
  - repeat split; try reflexivity.
    + apply insert_delete_eq.
    + now rewrite <- app_assoc.
  - repeat split; try reflexivity. now rewrite <- app_assoc.
Qed.

(** *** The recompute, case by case *)

Lemma update_info_cases w filepath s :
  __update_info w filepath s =
  match file_infos s !! filepath with
  | None => (Ok tt, s)
  | Some old =>
      if os_path_exists w filepath then
        match file_entropy w filepath with
        | Raise e => (Raise e, s)
        | Ok new_entropy =>
            match __get_mime w filepath with
            | Raise e => (Raise e, s)
            | Ok new_mime =>
                (Ok tt,
                 after s
                   (<[filepath := {| entropy := new_entropy;
                                     mime := new_mime |}]> (file_infos s))
                   (entropy_alarm filepath (entropy old) new_entropy ++
                    mime_alarm filepath (mime old) new_mime))
            end
        end
      else (Ok tt, after s (delete filepath (file_infos s)) [])
  end.
Proof.
  destruct (file_infos s !! filepath) as [old|] eqn:Hv;
    [|now apply update_info_untracked].
  destruct (os_path_exists w filepath) eqn:Hex;
    [|now apply update_info_missing with old].
  destruct (file_entropy w filepath) as [new_entropy|e] eqn:He;
    [|now apply update_info_entropy_raises with old].
  destruct (__get_mime w filepath) as [new_mime|e] eqn:Hm.
  - now apply update_info_measured.
  - now apply update_info_mime_raises with old new_entropy.
Qed.

Lemma update_info_fails w filepath s old e :
  file_infos s !! filepath = Some old ->
  recompute_fails w filepath e ->
  __update_info w filepath s = (Raise e, s).
Proof.
  intros Hv [Hex [He|(new_entropy & He & Hm)]].
  - now apply update_info_entropy_raises with old.
  - now apply update_info_mime_raises with old new_entropy.
Qed.

(** The recompute of one path leaves every other entry alone. *)
Lemma update_info_frame w filepath s other :
  other <> filepath ->
  file_infos (snd (__update_info w filepath s)) !! other =
  file_infos s !! other.
Proof.
  intros Hne. rewrite update_info_cases.
  destruct (file_infos s !! filepath) as [old|]; [|reflexivity].
  destruct (os_path_exists w filepath).
  - destruct (file_entropy w filepath); [|reflexivity].
    destruct (__get_mime w filepath); [|reflexivity].
    cbn [snd after file_infos]. now apply lookup_insert_ne.
  - cbn [snd after file_infos]. now apply lookup_delete_ne.
Qed.

Lemma alarms_unchanged filepath old :
  entropy_alarm filepath (entropy old) (entropy old) ++
  mime_alarm filepath (mime old) (mime old) = [].
Proof.
  unfold entropy_alarm, mime_alarm, ENTROPY_LIMIT.
  destruct (Rgt_dec (entropy old - entropy old) 0.01) as [Hgt|_]; [lra|].
  destruct (decide (mime old = mime old)); [reflexivity|contradiction].
Qed.

Lemma on_moved_src_gone w src_path dest_path s old :
  file_infos s !! src_path = Some old ->
  file_infos (snd (on_moved w src_path dest_path s)) !! src_path = None.
Proof.
  intros Hv. rewrite (on_moved_tracked w _ _ _ old Hv).
  destruct (decide (src_path = dest_path)) as [<-|Hne].
  - rewrite update_info_untracked; cbn [snd after file_infos];
      apply lookup_delete_eq.
  - rewrite update_info_frame by assumption.
    cbn [after file_infos]. apply lookup_delete_eq.
Qed.

(** *** Moves *)

Lemma carried_lookup_dest (m : gmap string FileInfo) src_path dest_path old :
  src_path <> dest_path ->
  delete src_path (<[dest_path := old]> m) !! dest_path = Some old.
Proof.
  intros Hne. rewrite lookup_delete_ne by assumption. apply lookup_insert_eq.
Qed.

Lemma on_moved_measured w src_path dest_path s old new_entropy new_mime :
  file_infos s !! src_path = Some old ->
  src_path <> dest_path ->
  os_path_exists w dest_path = true ->
  file_entropy w dest_path = Ok new_entropy ->
  __get_mime w dest_path = Ok new_mime ->
  on_moved w src_path dest_path s =
  (Ok tt,
   after s
     (<[dest_path := {| entropy := new_entropy; mime := new_mime |}]>
        (delete src_path (file_infos s)))
     (info (MsgMoved src_path dest_path) ::
      entropy_alarm dest_path (entropy old) new_entropy ++
      mime_alarm dest_path (mime old) new_mime)).
Proof.
  intros Hv Hne Hex He Hm. rewrite (on_moved_tracked w _ _ _ old Hv).
  rewrite (update_info_measured w dest_path _ old new_entropy new_mime);
    try assumption.
  - rewrite after_after. cbn [after file_infos].
    now rewrite delete_insert_ne, insert_insert_eq by assumption.
  - cbn [after file_infos]. now apply carried_lookup_dest.
Qed.

Lemma on_moved_missing w src_path dest_path s old :
  file_infos s !! src_path = Some old ->
  os_path_exists w dest_path = false ->
  fst (on_moved w src_path dest_path s) = Ok tt /\
  file_infos (snd (on_moved w src_path dest_path s)) !! dest_path = None /\
  log (snd (on_moved w src_path dest_path s)) =
  log s ++ [info (MsgMoved src_path dest_path)].
Proof.
  intros Hv Hex. rewrite (on_moved_tracked w _ _ _ old Hv).
  rewrite update_info_cases, Hex.
  destruct (file_infos (after s _ _) !! dest_path) eqn:Hd;
    cbn [fst snd after file_infos log]; rewrite ?app_nil_r.
  - repeat split. apply lookup_delete_eq.
  - repeat split. exact Hd.
Qed.

Lemma on_moved_fails w src_path dest_path s old e :
  file_infos s !! src_path = Some old ->
  src_path <> dest_path ->
  recompute_fails w dest_path e ->
  on_moved w src_path dest_path s =
  (Raise e,
   after s (delete src_path (<[dest_path := old]> (file_infos s)))
     [info (MsgMoved src_path dest_path)]).
Proof.
  intros Hv Hne Hfail. rewrite (on_moved_tracked w _ _ _ old Hv).
  apply update_info_fails with old; [|assumption].
  cbn [after file_infos]. now apply carried_lookup_dest.
Qed.

(** C4, amended. On a MovedTo event whose source is tracked, the baseline is
    carried over to the destination and the recompute of Modified runs on
    it, so the source is always absent afterwards. If the destination file
    does not exist when the event is handled, the destination is removed as
    well. If it exists, differs from the source and is measured, the
    anomaly rule compares the carried-over baseline with the measurement
    and the destination holds the new baseline; when the measurement equals
    the carried-over baseline, the destination holds that baseline and
    nothing but the INFO record is logged. If the source is not tracked,
    the event does to the dict what Created(dest) does. *)
Theorem on_moved_transfers (w : World) (src_path dest_path : string)
  (s : State) :
  let done := on_moved w src_path dest_path s in
  (forall old, file_infos s !! src_path = Some old ->
     done =
       __update_info w dest_path
         (after s (delete src_path (<[dest_path := old]> (file_infos s)))
            [info (MsgMoved src_path dest_path)]) /\
     file_infos (snd done) !! src_path = None /\
     (os_path_exists w dest_path = false ->
        fst done = Ok tt /\
        file_infos (snd done) !! dest_path = None /\
        log (snd done) = log s ++ [info (MsgMoved src_path dest_path)]) /\
     (forall new_entropy new_mime,
        src_path <> dest_path ->
        os_path_exists w dest_path = true ->
        file_entropy w dest_path = Ok new_entropy ->
        __get_mime w dest_path = Ok new_mime ->
        fst done = Ok tt /\
        file_infos (snd done) !! dest_path =
          Some {| entropy := new_entropy; mime := new_mime |} /\
        log (snd done) =
          log s ++
          info (MsgMoved src_path dest_path) ::
          entropy_alarm dest_path (entropy old) new_entropy ++
          mime_alarm dest_path (mime old) new_mime /\
        (new_entropy = entropy old -> new_mime = mime old ->
           file_infos (snd done) !! dest_path = Some old /\
           log (snd done) = log s ++ [info (MsgMoved src_path dest_path)]))) /\
  (file_infos s !! src_path = None ->
     fst done = fst (on_created w dest_path s) /\
     file_infos (snd done) = file_infos (snd (on_created w dest_path s)) /\
     log (snd done) = log s ++ [info (MsgMoved src_path dest_path)]).
Proof.
  cbv zeta. split.
  - intros old Hv. split; [now apply on_moved_tracked|].
    split; [now apply on_moved_src_gone with old|].
    split; [now apply on_moved_missing with old|].
    intros new_entropy new_mime Hne Hex He Hm.
    rewrite (on_moved_measured w _ _ _ old new_entropy new_mime) by assumption.
    cbn [fst snd after file_infos log].
    split; [reflexivity|]. split; [apply lookup_insert_eq|].
    split; [reflexivity|]. intros -> ->. rewrite alarms_unchanged.
    split; [|reflexivity]. destruct old. apply lookup_insert_eq.
  - intros Hv. rewrite (on_moved_untracked w _ _ _ Hv), on_created_run.
    destruct (probe w dest_path); cbn [fst snd after file_infos log]; auto.
Qed.

Lemma on_moved_transfers_counterexample :
  file_infos text_state !! "/d/f" =
    Some {| entropy := 0; mime := "text/plain" |} /\
  ~ is_Some
      (file_infos (snd (on_moved empty_world "/d/f" "/d/g" text_state))
       !! "/d/g").
Proof.
  split; [reflexivity|].
  destruct (on_moved_missing empty_world "/d/f" "/d/g" text_state
              {| entropy := 0; mime := "text/plain" |} eq_refl eq_refl)
    as (_ & Hgone & _).
  rewrite Hgone. intros [v Hv]. discriminate.
Qed.

Lemma on_moved_transfers_witness :
  let done := on_moved text_world "/d/old" "/d/f" renamed_state in
  fst done = Ok tt /\
  file_infos (snd done) !! "/d/old" = None /\
  file_infos (snd done) !! "/d/f" =
    Some {| entropy := measure_spec [xA; xB]; mime := "text/plain" |} /\
  log (snd done) = [info (MsgMoved "/d/old" "/d/f")].
Proof.
  destruct (on_moved_transfers text_world "/d/old" "/d/f" renamed_state)
    as [Htracked _].
  destruct (Htracked {| entropy := measure_spec [xA; xB];
                        mime := "text/plain" |} eq_refl)
    as (_ & Hsrc & _ & Hdest).
  destruct (Hdest (measure_spec [xA; xB]) "text/plain") as (Hok & _ & _ & Hsame).
  - discriminate.
  - reflexivity.
  - exact (proj1 (file_entropy_holds _ _ _ text_world_holds)).
  - reflexivity.
  - destruct (Hsame eq_refl eq_refl) as [Hd Hl].
    cbv zeta. repeat split; assumption.
Defined.

(** *** Failures while recomputing *)

Lemma on_modified_missing w src_path s old :
  file_infos s !! src_path = Some old ->
  os_path_exists w src_path = false ->
  on_modified w src_path s =
  (Ok tt,
   after s (delete src_path (file_infos s)) [info (MsgModified src_path)]).
Proof.
  intros Hv Hex. unfold on_modified.
  rewrite (bind_Ok _ _ _ _ _ (logging_run _ _ _)).
  rewrite (update_info_missing w src_path _ old) by assumption.
  now rewrite after_after.
Qed.

Lemma on_modified_fails w src_path s old e :
  file_infos s !! src_path = Some old ->
  recompute_fails w src_path e ->
  on_modified w src_path s =
  (Raise e, after s (file_infos s) [info (MsgModified src_path)]).
Proof.
  intros Hv Hfail. unfold on_modified.
  rewrite (bind_Ok _ _ _ _ _ (logging_run _ _ _)).
  now apply update_info_fails with old.
Qed.

Lemma unreadable_text_fails :
  recompute_fails (unreadable text_world) "/d/f" OSError.
Proof. split; [reflexivity|]. left. reflexivity. Qed.

(** C3, amended. A recompute that finds the file missing at its existence
    check removes the path from the dict and returns normally. A failure
    after that check is not handled: the exception leaves the handler, no
    warning is logged, and the dict keeps the entry with the old baseline
    (under the destination path, for a MovedTo event). *)
Theorem recompute_failure (w : World) (src_path dest_path : string)
  (s : State) (old : FileInfo) :
  file_infos s !! src_path = Some old ->
  (os_path_exists w src_path = false ->
     on_modified w src_path s =
     (Ok tt,
      after s (delete src_path (file_infos s)) [info (MsgModified src_path)])) /\
  (forall e, recompute_fails w src_path e ->
     on_modified w src_path s =
     (Raise e, after s (file_infos s) [info (MsgModified src_path)])) /\
  (os_path_exists w dest_path = false ->
     fst (on_moved w src_path dest_path s) = Ok tt /\
     file_infos (snd (on_moved w src_path dest_path s)) !! dest_path = None) /\
  (forall e, src_path <> dest_path -> recompute_fails w dest_path e ->
     fst (on_moved w src_path dest_path s) = Raise e /\
     file_infos (snd (on_moved w src_path dest_path s)) !! dest_path = Some old /\
     log (snd (on_moved w src_path dest_path s)) =
     log s ++ [info (MsgMoved src_path dest_path)]).
Proof.
  intros Hv. split; [intros Hex; now apply on_modified_missing with old|].
  split; [intros e Hfail; now apply on_modified_fails with old|].
  split.
  - intros Hex.
    destruct (on_moved_missing w src_path dest_path s old Hv Hex) as (? & ? & _).
    auto.
  - intros e Hne Hfail.
    rewrite (on_moved_fails w _ _ _ old e) by assumption.
    cbn [fst snd after file_infos log].
    repeat split. now apply carried_lookup_dest.
Qed.

Lemma recompute_failure_counterexample :
  let done := on_modified (unreadable text_world) "/d/f" text_state in
  file_infos text_state !! "/d/f" =
    Some {| entropy := 0; mime := "text/plain" |} /\
  fst done = Raise OSError /\
  file_infos (snd done) !! "/d/f" =
    Some {| entropy := 0; mime := "text/plain" |}.
Proof.
  cbv zeta.
  rewrite (on_modified_fails (unreadable text_world) "/d/f" text_state
             {| entropy := 0; mime := "text/plain" |} OSError eq_refl
             unreadable_text_fails).
  repeat split.
Qed.

Lemma recompute_failure_witness :
  on_modified (unreadable text_world) "/d/f" text_state =
  (Raise OSError,
   after text_state (file_infos text_state) [info (MsgModified "/d/f")]) /\
  fst (on_moved empty_world "/d/f" "/d/g" text_state) = Ok tt.
Proof.
  split.
  - apply (recompute_failure (unreadable text_world) "/d/f" "/d/g" text_state
             {| entropy := 0; mime := "text/plain" |} eq_refl).
    exact unreadable_text_fails.
  - apply (recompute_failure empty_world "/d/f" "/d/g" text_state
             {| entropy := 0; mime := "text/plain" |} eq_refl).
    reflexivity.
Defined.

(** ** The disk probe *)

(** C8. With the sleep interval 1 of [__disk_check], a turn of the disk
    probe logs its warning if and only if the reading grew by more than
    100 * 1 since the previous sample, and the sample becomes the previous
    one of the next turn; a growth of 150 warns and a growth of 50 does
    not. *)
Theorem disk_check_threshold (last_reading_time new_reading_time : Z) :
  (In (ProbeLog (warning MsgDisk))
      (fst (disk_iteration 1 last_reading_time new_reading_time)) <->
   (new_reading_time - last_reading_time > 100 * 1)%Z) /\
  snd (disk_iteration 1 last_reading_time new_reading_time) = new_reading_time /\
  (forall readings,
     __disk_check (last_reading_time :: new_reading_time :: readings) =
     fst (disk_iteration 1 last_reading_time new_reading_time) ++
     __disk_check (new_reading_time :: readings)) /\
  In (ProbeLog (warning MsgDisk))
     (fst (disk_iteration 1 last_reading_time (last_reading_time + 150))) /\
  ~ In (ProbeLog (warning MsgDisk))
      (fst (disk_iteration 1 last_reading_time (last_reading_time + 50))).
Proof.
  unfold disk_iteration, warning. cbn [fst snd].
  split; [|split; [reflexivity|split; [reflexivity|split]]].
  - destruct (Z.gtb_spec (new_reading_time - last_reading_time) (1 * 100)) as [H|H].
    + split; [lia|]. intros _. now left.
    + split; [|lia]. cbn [app In]. intros [Hin|[]]. discriminate.
  - replace (last_reading_time + 150 - last_reading_time)%Z with 150%Z by lia.
    now left.
  - replace (last_reading_time + 50 - last_reading_time)%Z with 50%Z by lia.
    cbn. intros [Hin|[]]. discriminate.
Qed.

(** ** The interval *)

(** C9. The interval given to [IronDome.__init__] is stored in the object
    and reaches nothing the program does: two executions that differ in
    nothing but the interval take the same actions, leave the same dict and
    the same log after the same events, and their probes decide the same. *)
Theorem interval_is_advisory (w : World) (dir_path : string)
  (extensions : list string) (interval1 interval2 : Z)
  (evs : list (World * event)) (cpu_samples : list R)
  (mem_samples : list nat) (disk_readings : list Z) :
  interval (IronDome_init w dir_path extensions interval1) = interval1 /\
  interval (IronDome_init w dir_path extensions interval2) = interval2 /\
  execute w (IronDome_init w dir_path extensions interval1)
    evs cpu_samples mem_samples disk_readings =
  execute w (IronDome_init w dir_path extensions interval2)
    evs cpu_samples mem_samples disk_readings.
Proof.
  unfold execute, run, IronDome_init.
  destruct (os_path_isfile w (os_path_abspath_expanduser w dir_path));
    [destruct (os_path_split w (os_path_abspath_expanduser w dir_path))|];
    repeat split.
Qed.

(** ** The initial scan *)

Lemma for_in_invariant {A S} (P : S -> Prop) (body : A -> S -> result S) l :
  (forall a acc acc', In a l -> P acc -> body a acc = Ok acc' -> P acc') ->
  forall acc acc', P acc -> for_in l body acc = Ok acc' -> P acc'.
Proof.
  induction l as [|a l IH]; intros Hbody acc acc' Hacc Hrun; cbn in Hrun.
  - now injection Hrun as <-.
  - destruct (body a acc) as [acc1|e] eqn:Ha; [|discriminate].
    cbn [result_bind] in Hrun.
    apply (IH (fun b x y Hb => Hbody b x y (or_intror Hb)) acc1 acc');
      [|assumption].
    apply (Hbody a acc acc1); auto. now left.
Qed.

(** What a turn establishes for its element, and later turns keep, holds
    for every element once the loop is over. *)
Lemma for_in_covers {A S} (Q : A -> S -> Prop) (body : A -> S -> result S) l :
  (forall a acc acc', body a acc = Ok acc' -> Q a acc') ->
  (forall a b acc acc', Q a acc -> body b acc = Ok acc' -> Q a acc') ->
  forall acc acc', for_in l body acc = Ok acc' ->
  forall a, In a l -> Q a acc'.
Proof.
  intros Hmake Hkeep.
  induction l as [|x l IH]; intros acc acc' Hrun a Hin; [destruct Hin|].
  cbn in Hrun. destruct (body x acc) as [acc1|e] eqn:Hx; [|discriminate].
  cbn [result_bind] in Hrun. destruct Hin as [->|Hin].
  - apply (for_in_invariant (Q a) body l) with acc1; eauto.
  - now apply (IH acc1 acc').
Qed.

Lemma scan_file_has w root_path file acc acc' :
  scan_file w root_path file acc = Ok acc' ->
  is_Some (acc' !! os_path_join w root_path file).
Proof.
  unfold scan_file. destruct (probe w _) as [new|e]; [|discriminate].
  cbn [result_bind]. intros [= <-]. rewrite lookup_insert_eq. eauto.
Qed.

Lemma scan_file_keeps w root_path file acc acc' filepath :
  is_Some (acc !! filepath) ->
  scan_file w root_path file acc = Ok acc' ->
  is_Some (acc' !! filepath).
Proof.
  unfold scan_file. destruct (probe w _) as [new|e]; [|discriminate].
  cbn [result_bind]. intros Hin [= <-]. apply lookup_insert_is_Some'. now right.
Qed.

Lemma scan_file_measured w root_path file acc acc' :
  measured w acc -> scan_file w root_path file acc = Ok acc' -> measured w acc'.
Proof.
  unfold scan_file. destruct (probe w _) as [new|e] eqn:Hp; [|discriminate].
  cbn [result_bind]. intros Hacc [= <-] filepath new' Hl.
  destruct (decide (os_path_join w root_path file = filepath)) as [<-|Hne].
  - rewrite lookup_insert_eq in Hl. now injection Hl as <-.
  - rewrite lookup_insert_ne in Hl by assumption. now apply Hacc.
Qed.

Lemma init_file_infos_unfold w monitoring_path patterns :
  __init_file_infos w monitoring_path patterns =
  for_in (os_walk w monitoring_path) (scan_folder w patterns) ∅.
Proof.
  unfold __init_file_infos. f_equal.
Qed.

Lemma scan_pattern_keeps w root_path files pattern acc acc' filepath :
  is_Some (acc !! filepath) ->
  scan_pattern w root_path files pattern acc = Ok acc' ->
  is_Some (acc' !! filepath).
Proof.
  apply (for_in_invariant (fun x => is_Some (x !! filepath))).
  intros file x y _ Hx Hrun. now apply (scan_file_keeps w root_path file x).
Qed.

Lemma scan_pattern_measured w root_path files pattern acc acc' :
  measured w acc ->
  scan_pattern w root_path files pattern acc = Ok acc' ->
  measured w acc'.
Proof.
  apply (for_in_invariant (measured w)).
  intros file x y _ Hx Hrun. now apply (scan_file_measured w root_path file x).
Qed.

Lemma scan_pattern_has w root_path files pattern acc acc' file :
  scan_pattern w root_path files pattern acc = Ok acc' ->
  In file files -> fnmatch w file pattern = true ->
  is_Some (acc' !! os_path_join w root_path file).
Proof.
  intros Hrun Hin Hmatch.
  apply (for_in_covers
           (fun f x => is_Some (x !! os_path_join w root_path f))
           (scan_file w root_path) (fnmatch_filter w files pattern)
           (scan_file_has w root_path)
           (fun a b x y Hx Hb => scan_file_keeps w root_path b x y _ Hx Hb)
           acc acc' Hrun).
  unfold fnmatch_filter. apply filter_In. auto.
Qed.

Lemma scan_folder_keeps w patterns walked acc acc' filepath :
  is_Some (acc !! filepath) ->
  scan_folder w patterns walked acc = Ok acc' ->
  is_Some (acc' !! filepath).
Proof.
  destruct walked as [[root_path folders] files]. cbn [scan_folder].
  apply (for_in_invariant (fun x => is_Some (x !! filepath))).
  intros pattern x y _ Hx Hrun.
  now apply (scan_pattern_keeps w root_path files pattern x).
Qed.

Lemma scan_folder_measured w patterns walked acc acc' :
  measured w acc ->
  scan_folder w patterns walked acc = Ok acc' ->
  measured w acc'.
Proof.
  destruct walked as [[root_path folders] files]. cbn [scan_folder].
  apply (for_in_invariant (measured w)).
  intros pattern x y _ Hx Hrun.
  now apply (scan_pattern_measured w root_path files pattern x).
Qed.

Lemma scan_folder_has w patterns root_path folders files acc acc' pattern file :
  scan_folder w patterns (root_path, folders, files) acc = Ok acc' ->
  In pattern patterns -> In file files -> fnmatch w file pattern = true ->
  is_Some (acc' !! os_path_join w root_path file).
Proof.
  cbn [scan_folder]. intros Hrun Hp Hin Hmatch.
  refine (for_in_covers
            (fun p x => forall f, In f files -> fnmatch w f p = true ->
                        is_Some (x !! os_path_join w root_path f))
            (scan_pattern w root_path files) patterns _ _
            acc acc' Hrun pattern Hp file Hin Hmatch).
  - intros p x y Hxy f Hf Hfm.
    now apply (scan_pattern_has w root_path files p x).
  - intros p q x y Hx Hq f Hf Hfm.
    apply (scan_pattern_keeps w root_path files q x y);
      [now apply (Hx f)|assumption].
Qed.

(** The scan, when it returns, holds a measured baseline for every eligible
    file. *)
Lemma init_file_infos_complete w self infos filepath :
  __init_file_infos w (monitoring_path self) (patterns self) = Ok infos ->
  eligible w self filepath ->
  exists new, infos !! filepath = Some new /\ probe w filepath = Ok new.
Proof.
  rewrite init_file_infos_unfold. intros Hrun.
  intros (root_path & folders & files & pattern & file &
          Hwalk & Hp & Hin & Hmatch & ->).
  assert (Hm : measured w infos).
  { refine (for_in_invariant (measured w) (scan_folder w (patterns self))
              (os_walk w (monitoring_path self)) _ ∅ infos _ Hrun).
    - intros walked x y _ Hx Hxy.
      now apply (scan_folder_measured w (patterns self) walked x).
    - intros ? ? Hl. now rewrite lookup_empty in Hl. }
  assert (Hs : is_Some (infos !! os_path_join w root_path file)).
  { refine (for_in_covers
              (fun walked x =>
                 forall p f, In p (patterns self) -> In f (snd walked) ->
                   fnmatch w f p = true ->
                   is_Some (x !! os_path_join w (fst (fst walked)) f))
              (scan_folder w (patterns self))
              (os_walk w (monitoring_path self)) _ _
              ∅ infos Hrun (root_path, folders, files) Hwalk
              pattern file Hp Hin Hmatch).
    - intros [[r fo] fi] x y Hxy p f Hp' Hf Hfm. cbn [fst snd] in *.
      now apply (scan_folder_has w (patterns self) r fo fi x y p).
    - intros a b x y Hx Hb p f Hp' Hf Hfm.
      apply (scan_folder_keeps w (patterns self) b x y);
        [now apply (Hx p f)|assumption]. }
  destruct Hs as [new Hnew]. exists new. split; [assumption|].
  now apply Hm.
Qed.

(** C5. [run] scans before it watches: when [run] reaches its idle loop,
    the constructor of the handler has returned the dict of the scan, which
    holds a measured baseline for every file of the walk that matches a
    pattern, and only then was the observer scheduled and started, on that
    dict; the events are delivered to the state so seeded. When the scan
    raises, the observer is never started and no event is delivered. *)
Theorem scan_before_watch (w : World) (self : IronDome) :
  match run w self with
  | (acts, Ok st) =>
      exists startup infos,
        __init_file_infos w (monitoring_path self) (patterns self) = Ok infos /\
        st = {| file_infos := infos; log := [] |} /\
        acts =
          startup ++
          [HandlerInit infos;
           ObserverSchedule (monitoring_path self)
             (os_path_isdir w (monitoring_path self));
           ObserverStart] /\
        ~ In ObserverStart startup /\
        (forall filepath, eligible w self filepath ->
           exists new,
             infos !! filepath = Some new /\ probe w filepath = Ok new) /\
        (forall evs cpu_samples mem_samples disk_readings,
           watch (execute w self evs cpu_samples mem_samples disk_readings) =
           Some (observe evs {| file_infos := infos; log := [] |}))
  | (acts, Raise e) =>
      __init_file_infos w (monitoring_path self) (patterns self) = Raise e /\
      ~ In ObserverStart acts /\
      (forall evs cpu_samples mem_samples disk_readings,
         watch (execute w self evs cpu_samples mem_samples disk_readings) = None)
  end.
Proof.
  unfold execute, run.
  destruct (__init_file_infos w (monitoring_path self) (patterns self))
    as [infos|e] eqn:Hscan.
  - eexists _, infos. split; [reflexivity|]. split; [reflexivity|].
    split; [reflexivity|]. split.
    + cbn [In]. intuition discriminate.
    + split; [|reflexivity].
      intros filepath. now apply init_file_infos_complete.
  - split; [reflexivity|]. split; [|reflexivity].
    cbn [In]. intuition discriminate.
Qed.

Lemma text_probe :
  probe text_world "/d/f" =
  Ok {| entropy := measure_spec [xA; xB]; mime := "text/plain" |}.
Proof.
  unfold probe.
  rewrite (proj1 (file_entropy_holds _ _ _ text_world_holds)).
  reflexivity.
Qed.

Lemma text_scan :
  __init_file_infos text_world (monitoring_path text_dome) (patterns text_dome) =
  Ok (<["/d/f" := {| entropy := measure_spec [xA; xB]; mime := "text/plain" |}]> ∅).
Proof.
  rewrite init_file_infos_unfold.
  change (os_walk text_world (monitoring_path text_dome))
    with [("/d", @nil string, ["f"])].
  change (patterns text_dome) with ["*"].
  cbn [for_in scan_folder result_bind].
  unfold scan_pattern.
  change (fnmatch_filter text_world ["f"] "*") with ["f"].
  cbn [for_in]. unfold scan_file.
  change (os_path_join text_world "/d" "f") with "/d/f".
  rewrite text_probe. reflexivity.
Qed.

Lemma text_eligible : eligible text_world text_dome "/d/f".
Proof.
  exists "/d", [], ["f"], "*", "f". repeat split; now left.
Qed.

Lemma scan_before_watch_witness :
  exists acts infos new,
    run text_world text_dome = (acts, Ok {| file_infos := infos; log := [] |}) /\
    infos !! "/d/f" = Some new /\
    probe text_world "/d/f" = Ok new.
Proof.
  pose proof (scan_before_watch text_world text_dome) as H.
  destruct (run text_world text_dome) as [acts [st|e]] eqn:Hrun.
  - destruct H as (startup & infos & _ & -> & _ & _ & Hcovers & _).
    destruct (Hcovers "/d/f" text_eligible) as (new & Hnew & Hprobe).
    exists acts, infos, new. auto.
  - destruct H as (Hraise & _). rewrite text_scan in Hraise. discriminate.
Defined.

(** * Further properties of the code *)

(** ** Reading /proc/diskstats *)

Lemma to_uint_nonnil (n : N) : N.to_uint n <> Decimal.Nil.
Proof.
  destruct n as [|p]; [discriminate|].
  apply DecimalPos.Unsigned.to_uint_nonnil.
Qed.

(** X1. [__reading_time] returns the number that the digits of the seventh
    field write in decimal, leading zeros included; in particular it reads
    back the decimal writing of every number. *)
Theorem reading_time_roundtrip (fields : list string) (d : Decimal.uint) :
  d <> Decimal.Nil ->
  nth_error fields 6 = Some (NilZero.string_of_uint d) ->
  __reading_time fields = Returned (Z.of_N (N.of_uint d)) /\
  forall n : N, d = N.to_uint n ->
    __reading_time fields = Returned (Z.of_N n).
Proof.
  intros Hd Hfield.
  assert (Hread : __reading_time fields = Returned (Z.of_N (N.of_uint d))).
  { unfold __reading_time, isdecimal, int. rewrite Hfield.
    now rewrite (NilZero.usu d Hd). }
  split; [exact Hread|].
  intros n ->. rewrite Hread. now rewrite DecimalN.Unsigned.of_to.
Qed.

Lemma reading_time_roundtrip_witness :
  __reading_time ["8"; "0"; "sda"; "5"; "0"; "40"; "007"; "0"] = Returned 7 /\
  __reading_time ["8"; "0"; "sda"; "5"; "0"; "40"; "1500"; "0"] =
  Returned 1500.
Proof.
  split.
  - apply (proj1 (reading_time_roundtrip
                    ["8"; "0"; "sda"; "5"; "0"; "40"; "007"; "0"]
                    (Decimal.D0 (Decimal.D0 (Decimal.D7 Decimal.Nil)))
                    ltac:(discriminate) eq_refl)).
  - apply (proj2 (reading_time_roundtrip
                    ["8"; "0"; "sda"; "5"; "0"; "40"; "1500"; "0"]
                    (N.to_uint 1500) (to_uint_nonnil 1500) eq_refl) 1500%N).
    reflexivity.
Defined.

Lemma reading_time_short (fields : list string) :
  (length fields <= 6)%nat -> __reading_time fields = RaisedIndexError.
Proof.
  intros Hlen. apply nth_error_None in Hlen.
  unfold __reading_time. now rewrite Hlen.
Qed.

Lemma reading_time_junk (fields : list string) (field : string) :
  nth_error fields 6 = Some field ->
  isdecimal field = false ->
  __reading_time fields = Returned 0.
Proof.
  intros Hnth Hdec. unfold __reading_time. now rewrite Hnth, Hdec.
Qed.

(** X2. [__reading_time] raises IndexError exactly on a line of fewer than
    seven fields; [int] never raises, because it only sees a decimal
    field; and a returned reading is never negative (a field that is not
    decimal, such as a negative number, reads as 0). *)
Theorem reading_time_outcomes (fields : list string) :
  (__reading_time fields = RaisedIndexError <-> (length fields <= 6)%nat) /\
  __reading_time fields <> RaisedValueError /\
  (forall time_ms, __reading_time fields = Returned time_ms -> (0 <= time_ms)%Z) /\
  (forall time_ms, nth_error fields 6 = Some time_ms ->
     isdecimal time_ms = false -> __reading_time fields = Returned 0).
Proof.
  unfold __reading_time, isdecimal, int.
  destruct (nth_error fields 6) as [time_ms|] eqn:Hnth.
  - assert (Hlen : ~ (length fields <= 6)%nat).
    { intros Hle. apply nth_error_None in Hle. congruence. }
    destruct (NilZero.uint_of_string time_ms) as [d|] eqn:Hu;
      (split; [split; [discriminate|tauto]|]);
      (split; [discriminate|]); split.
    + intros t [= <-]. lia.
    + intros t [= <-] Hd. rewrite Hu in Hd. discriminate.
    + intros t [= <-]. lia.
    + intros t [= <-] _. reflexivity.
  - apply nth_error_None in Hnth.
    split; [tauto|]. split; [discriminate|]. split; discriminate.
Qed.

Lemma disk_loop_lines_returned sleep_time lines : forall readings last,
  List.Forall2 (fun fields r => __reading_time fields = Returned r)
    lines readings ->
  disk_loop_lines sleep_time last lines =
    (disk_loop sleep_time last readings, None) /\
  forall bad rest, __reading_time bad = RaisedIndexError ->
    disk_loop_lines sleep_time last (lines ++ bad :: rest) =
    (disk_loop sleep_time last readings, Some RaisedIndexError).
Proof.
  induction lines as [|fields lines IH]; intros readings last Hall;
    inversion Hall as [|? r ? readings' Hr Hrest]; subst.
  - split; [reflexivity|]. intros bad rest Hbad.
    cbn [app disk_loop_lines disk_loop]. now rewrite Hbad.
  - cbn [app disk_loop_lines disk_loop]. rewrite Hr.
    unfold disk_iteration at 1 3.
    destruct (IH readings' r Hrest) as [IH1 IH2]. split.
    + now rewrite IH1.
    + intros bad rest Hbad. now rewrite (IH2 bad rest Hbad).
Qed.

(** X3. The disk probe with its reads: as long as every line has its seven
    fields, the thread does what [__disk_check] does on the readings and
    goes on; the first line with fewer fields ends the thread with
    IndexError, after the turns of the readings before it. *)
Theorem disk_check_lines_runs (lines : list (list string))
  (readings : list Z) :
  List.Forall2 (fun fields r => __reading_time fields = Returned r)
    lines readings ->
  __disk_check_lines lines = (__disk_check readings, None) /\
  forall bad rest, (length bad <= 6)%nat ->
    __disk_check_lines (lines ++ bad :: rest) =
    (__disk_check readings, Some RaisedIndexError).
Proof.
  intros Hall. unfold __disk_check_lines, __disk_check.
  inversion Hall as [|fields r lines' readings' Hr Hrest]; subst.
  - split; [reflexivity|]. intros bad rest Hbad. cbn [app].
    now rewrite (reading_time_short bad Hbad).
  - cbn [app]. rewrite Hr.
    destruct (disk_loop_lines_returned 1 lines' readings' r Hrest) as [H1 H2].
    split; [exact H1|]. intros bad rest Hbad. apply H2.
    now apply reading_time_short.
Qed.

Lemma disk_check_lines_runs_witness :
  __disk_check_lines
    [["8"; "0"; "sda"; "5"; "0"; "40"; "1500"];
     ["8"; "0"; "sda"; "9"; "0"; "72"; "1650"]] =
  (__disk_check [1500%Z; 1650%Z], None).
Proof.
  apply (disk_check_lines_runs
           [["8"; "0"; "sda"; "5"; "0"; "40"; "1500"];
            ["8"; "0"; "sda"; "9"; "0"; "72"; "1650"]]
           [1500%Z; 1650%Z]).
  repeat constructor.
Defined.

(** X4. A read whose seventh field is not decimal counts as 0, so the turn
    after it measures the whole counter as growth: between two equal
    readings above 100 it makes the probe warn although the counter did
    not move. *)
Theorem disk_check_false_alarm (before junk after : list string)
  (time_ms : Z) (field : string) :
  __reading_time before = Returned time_ms ->
  nth_error junk 6 = Some field -> isdecimal field = false ->
  __reading_time after = Returned time_ms ->
  (100 < time_ms)%Z ->
  __disk_check_lines [before; junk; after] =
  ([ProbeSleep 1; ProbeLog (warning MsgDisk); ProbeSleep 1], None).
Proof.
  intros Hb Hj Hd Ha Hbig.
  pose proof (reading_time_junk junk field Hj Hd) as Hjunk.
  unfold __disk_check_lines. rewrite Hb. cbn [disk_loop_lines].
  rewrite Hjunk, Ha. unfold disk_iteration, warning.
  destruct (Z.gtb_spec (0 - time_ms) (1 * 100)) as [Hgt|_]; [lia|].
  destruct (Z.gtb_spec (time_ms - 0) (1 * 100)) as [_|Hle]; [|lia].
  reflexivity.
Qed.

Lemma disk_check_false_alarm_witness :
  __disk_check_lines
    [["8"; "0"; "sda"; "5"; "0"; "40"; "1500"];
     ["8"; "0"; "sda"; "5"; "0"; "40"; "-"];
     ["8"; "0"; "sda"; "5"; "0"; "40"; "1500"]] =
  ([ProbeSleep 1; ProbeLog (warning MsgDisk); ProbeSleep 1], None).
Proof.
  apply (disk_check_false_alarm _ _ _ 1500%Z "-"); reflexivity.
Defined.

(** ** The memory and disk probes over time *)

(** X5. The memory probe compares in mebibytes what is a threshold in
    bytes: a turn logs its error exactly when the resident set is above
    104857600 bytes (100 MiB itself does not alert), and it sleeps its 10
    seconds in either case. *)
Theorem mem_check_threshold (rss : nat) :
  (In (ProbeLog {| levelname := ERROR; msg := MsgMem |}) (mem_iteration rss)
   <-> (104857600 < Z.of_nat rss)%Z) /\
  probe_warnings (mem_iteration rss) =
    (if (104857600 <? Z.of_nat rss)%Z then 1 else 0)%nat /\
  In (ProbeSleep 10) (mem_iteration rss).
Proof.
  unfold mem_iteration. rewrite INR_IZR_INZ.
  assert (Hiff : IZR (Z.of_nat rss) / 1048576 > 100 <->
                 (104857600 < Z.of_nat rss)%Z).
  { split.
    - intros H. apply lt_IZR. lra.
    - intros H. apply IZR_lt in H. lra. }
  destruct (Rgt_dec (IZR (Z.of_nat rss) / 1048576) 100) as [Hgt|Hle];
    destruct (Z.ltb_spec 104857600 (Z.of_nat rss)) as [Hlt|Hge];
    try (exfalso; apply Hiff in Hgt; lia);
    try (exfalso; apply Hle, Hiff; assumption).
  - split; [|split]; [|reflexivity|cbn; auto]. split; [tauto|]. intros _. now left.
  - split; [|split]; [|reflexivity|cbn; auto].
    split; [|lia]. cbn. intros [H|[]]. discriminate.
Qed.

Lemma disk_iteration_warnings last new :
  probe_warnings (fst (disk_iteration 1 last new)) =
  (if (new - last >? 1 * 100)%Z then 1 else 0)%nat.
Proof.
  unfold disk_iteration, probe_warnings. cbn [fst].
  now destruct (new - last >? 1 * 100)%Z.
Qed.

Lemma probe_warnings_app l1 l2 :
  probe_warnings (l1 ++ l2) = (probe_warnings l1 + probe_warnings l2)%nat.
Proof. unfold probe_warnings. now rewrite List.filter_app, length_app. Qed.

Lemma disk_loop_cons last new readings :
  disk_loop 1 last (new :: readings) =
  fst (disk_iteration 1 last new) ++ disk_loop 1 new readings.
Proof. reflexivity. Qed.

(** X6. The disk probe cannot warn more often than the counter allows:
    every turn warns at most once, and on readings that never go down each
    warning accounts for more than 100 units of the counter's growth, so
    101 times the number of warnings is at most the last reading minus the
    first. *)
Theorem disk_check_warnings_bounded (readings : list Z)
  (last_reading_time : Z) :
  (probe_warnings (__disk_check (last_reading_time :: readings))
   <= length readings)%nat /\
  (nondecreasing last_reading_time readings ->
   (101 * Z.of_nat (probe_warnings (__disk_check (last_reading_time :: readings)))
    <= List.last readings last_reading_time - last_reading_time)%Z).
Proof.
  unfold __disk_check. revert last_reading_time.
  induction readings as [|new readings IH]; intros last.
  - split; [cbn; lia|]. intros _. cbn. lia.
  - rewrite disk_loop_cons, probe_warnings_app, disk_iteration_warnings.
    destruct (IH new) as [IH1 IH2]. split.
    + cbn [length]. destruct (new - last >? 1 * 100)%Z; lia.
    + intros [Hle Hmono]. specialize (IH2 Hmono).
      assert (Hlast : List.last (new :: readings) last = List.last readings new).
      { destruct readings; [reflexivity|]. cbn [List.last].
        clear. revert z. induction readings as [|y rs IHr]; intros z;
          [reflexivity|]. cbn [List.last]. apply IHr. }
      rewrite Hlast.
      destruct (Z.gtb_spec (new - last) (1 * 100)); lia.
Qed.

Lemma disk_check_warnings_bounded_witness :
  (101 * Z.of_nat (probe_warnings (__disk_check [0; 150; 200; 450]))
   <= 450 - 0)%Z.
Proof.
  apply (disk_check_warnings_bounded [150; 200; 450]%Z 0%Z).
  cbn. lia.
Defined.

(** ** The handlers, whatever the event *)

Lemma on_modified_unfold w src_path s :
  on_modified w src_path s =
  __update_info w src_path
    (after s (file_infos s) [info (MsgModified src_path)]).
Proof.
  unfold on_modified. now rewrite (bind_Ok _ _ _ _ _ (logging_run _ _ _)).
Qed.

Lemma probe_cases w filepath :
  probe w filepath =
  match file_entropy w filepath with
  | Raise e => Raise e
  | Ok new_entropy =>
      match __get_mime w filepath with
      | Raise e => Raise e
      | Ok new_mime => Ok {| entropy := new_entropy; mime := new_mime |}
      end
  end.
Proof.
  unfold probe. destruct (file_entropy w filepath); [|reflexivity].
  cbn [result_bind]. now destruct (__get_mime w filepath).
Qed.

Lemma carried_lookup_other (m : gmap string FileInfo) src_path dest_path old q :
  q <> src_path -> q <> dest_path ->
  delete src_path (<[dest_path := old]> m) !! q = m !! q.
Proof.
  intros Hs Hd. rewrite lookup_delete_ne by congruence.
  now rewrite lookup_insert_ne by congruence.
Qed.

(** X7. A handler touches no entry but those of the paths its event names:
    whatever the world and the outcome, every other path keeps the entry it
    had, or stays absent. *)
Theorem dispatch_frame (w : World) (ev : event) (s : State) (other : string) :
  ~ In other (event_paths ev) ->
  file_infos (snd (dispatch w ev s)) !! other = file_infos s !! other.
Proof.
  destruct ev as [p|p|p|p|src dest]; cbn [event_paths In dispatch]; intros Hn.
  - rewrite on_created_run. destruct (probe w p); cbn [snd after file_infos];
      [|reflexivity]. apply lookup_insert_ne. intuition congruence.
  - reflexivity.
  - rewrite on_deleted_run. cbn [snd after file_infos].
    apply lookup_delete_ne. intuition congruence.
  - rewrite on_modified_unfold, update_info_frame by (intuition congruence). reflexivity.
  - destruct (file_infos s !! src) as [old|] eqn:Hv.
    + rewrite (on_moved_tracked w _ _ _ old Hv), update_info_frame by (intuition congruence).
      cbn [after file_infos]. apply carried_lookup_other; intuition congruence.
    + rewrite (on_moved_untracked w _ _ _ Hv).
      destruct (probe w dest); cbn [snd after file_infos]; [|reflexivity].
      apply lookup_insert_ne. intuition congruence.
Qed.

Lemma dispatch_frame_witness :
  file_infos (snd (dispatch text_world (FileModified "/d/f") renamed_state))
    !! "/d/old" =
  file_infos renamed_state !! "/d/old".
Proof.
  apply (dispatch_frame text_world (FileModified "/d/f") renamed_state "/d/old").
  cbn. intros [H|[]]. discriminate.
Defined.

Lemma update_info_raises w filepath s e :
  fst (__update_info w filepath s) = Raise e ->
  file_entropy w filepath = Raise e \/ __get_mime w filepath = Raise e.
Proof.
  rewrite update_info_cases.
  destruct (file_infos s !! filepath); [|discriminate].
  destruct (os_path_exists w filepath); [|discriminate].
  destruct (file_entropy w filepath); [|cbn; intros [= ->]; now left].
  destruct (__get_mime w filepath); [discriminate|].
  cbn. intros [= ->]. now right.
Qed.

Lemma probe_raises w filepath e :
  probe w filepath = Raise e ->
  file_entropy w filepath = Raise e \/ __get_mime w filepath = Raise e.
Proof.
  rewrite probe_cases.
  destruct (file_entropy w filepath); [|intros [= ->]; now left].
  destruct (__get_mime w filepath); [discriminate|].
  intros [= ->]. now right.
Qed.

(** X8. The handlers raise nothing of their own: the lookups and deletions
    on the dict are all guarded, so an exception that leaves a handler was
    raised by the measurement or by the type guess of a path of the event
    (and Closed and Deleted events never raise). *)
Theorem dispatch_raises (w : World) (ev : event) (s : State) (e : exn) :
  fst (dispatch w ev s) = Raise e ->
  exists filepath,
    In filepath (event_paths ev) /\
    (file_entropy w filepath = Raise e \/ __get_mime w filepath = Raise e) /\
    match ev with
    | FileCreated _ | FileModified _ | FileMoved _ _ => True
    | FileClosed _ | FileDeleted _ => False
    end.
Proof.
  destruct ev as [p|p|p|p|src dest]; cbn [event_paths dispatch].
  - rewrite on_created_run. destruct (probe w p) eqn:Hp; [discriminate|].
    cbn. intros [= ->]. exists p. split; [now left|].
    split; [now apply probe_raises|exact I].
  - discriminate.
  - rewrite on_deleted_run. discriminate.
  - rewrite on_modified_unfold. intros H. exists p. split; [now left|].
    split; [exact (update_info_raises _ _ _ _ H)|exact I].
  - destruct (file_infos s !! src) as [old|] eqn:Hv.
    + rewrite (on_moved_tracked w _ _ _ old Hv). intros H.
      exists dest. split; [right; now left|].
      split; [exact (update_info_raises _ _ _ _ H)|exact I].
    + rewrite (on_moved_untracked w _ _ _ Hv).
      destruct (probe w dest) eqn:Hp; [discriminate|].
      cbn. intros [= ->]. exists dest. split; [right; now left|].
      split; [now apply probe_raises|exact I].
Qed.

Lemma dispatch_raises_witness :
  exists filepath,
    In filepath (event_paths (FileModified "/d/f")) /\
    (file_entropy (unreadable text_world) filepath = Raise OSError \/
     __get_mime (unreadable text_world) filepath = Raise OSError) /\
    True.
Proof.
  apply (dispatch_raises (unreadable text_world) (FileModified "/d/f")
           text_state OSError).
  cbn [dispatch].
  now rewrite (on_modified_fails (unreadable text_world) "/d/f" text_state
                 {| entropy := 0; mime := "text/plain" |} OSError eq_refl
                 unreadable_text_fails).
Defined.

Lemma alarms_shape filepath old new_entropy new_mime :
  (length (entropy_alarm filepath (entropy old) new_entropy ++
           mime_alarm filepath (mime old) new_mime) <= 2)%nat /\
  List.Forall is_warning
    (entropy_alarm filepath (entropy old) new_entropy ++
     mime_alarm filepath (mime old) new_mime).
Proof.
  unfold entropy_alarm, mime_alarm.
  destruct (Rgt_dec _ _); destruct (decide _); cbn [app length];
    split; try lia; repeat constructor.
Qed.

Lemma update_info_log w filepath s :
  exists emitted,
    log (snd (__update_info w filepath s)) = log s ++ emitted /\
    (length emitted <= 2)%nat /\
    List.Forall is_warning emitted /\
    (file_infos s !! filepath = None -> emitted = []).
Proof.
  rewrite update_info_cases.
  destruct (file_infos s !! filepath) as [old|].
  - destruct (os_path_exists w filepath);
      [destruct (file_entropy w filepath) as [new_entropy|];
       [destruct (__get_mime w filepath) as [new_mime|]|]|].
    + destruct (alarms_shape filepath old new_entropy new_mime) as [Hlen Hall].
      eexists. cbn [snd after log]. repeat split; try eassumption. discriminate.
    + exists []. cbn [snd]. rewrite app_nil_r.
      repeat split; [cbn; lia|constructor].
    + exists []. cbn [snd]. rewrite app_nil_r.
      repeat split; [cbn; lia|constructor].
    + exists []. cbn [snd after log].
      repeat split; [cbn; lia|constructor].
  - exists []. cbn [snd]. rewrite app_nil_r.
    repeat split; [cbn; lia|constructor].
Qed.

(** X9. The log only grows, and in a fixed shape: a handler appends the
    INFO record of its event and then at most two records, all of them
    warnings. Created, Closed and Deleted events append nothing more, and
    neither does a Modified or MovedTo event whose (source) path is not
    tracked. *)
Theorem dispatch_log (w : World) (ev : event) (s : State) :
  exists emitted,
    log (snd (dispatch w ev s)) = log s ++ event_info ev :: emitted /\
    (length emitted <= 2)%nat /\
    List.Forall is_warning emitted /\
    match ev with
    | FileModified p | FileMoved p _ =>
        file_infos s !! p = None -> emitted = []
    | FileCreated _ | FileClosed _ | FileDeleted _ => emitted = []
    end.
Proof.
  destruct ev as [p|p|p|p|src dest]; cbn [dispatch event_info].
  - exists []. rewrite on_created_run.
    destruct (probe w p); cbn [snd after log];
      repeat split; try (cbn; lia); constructor.
  - exists []. repeat split; try (cbn; lia); constructor.
  - exists []. rewrite on_deleted_run. cbn [snd after log].
    repeat split; try (cbn; lia); constructor.
  - rewrite on_modified_unfold.
    destruct (update_info_log w p
                (after s (file_infos s) [info (MsgModified p)]))
      as (emitted & Hlog & Hlen & Hall & Hnone).
    exists emitted. rewrite Hlog. cbn [after log file_infos] in *.
    rewrite <- app_assoc. repeat split; assumption.
  - destruct (file_infos s !! src) as [old|] eqn:Hv.
    + rewrite (on_moved_tracked w _ _ _ old Hv).
      destruct (update_info_log w dest
                  (after s (delete src (<[dest := old]> (file_infos s)))
                     [info (MsgMoved src dest)]))
        as (emitted & Hlog & Hlen & Hall & _).
      exists emitted. rewrite Hlog. cbn [after log].
      rewrite <- app_assoc. repeat split; try assumption. discriminate.
    + exists []. rewrite (on_moved_untracked w _ _ _ Hv).
      destruct (probe w dest); cbn [snd after log];
        repeat split; try (cbn; lia); constructor.
Qed.

Lemma update_info_fresh w filepath s new :
  file_infos s !! filepath = Some new ->
  measures w filepath new ->
  __update_info w filepath s = (Ok tt, after s (file_infos s) []).
Proof.
  intros Hv (Hex & He & Hm).
  rewrite (update_info_measured w filepath s new (entropy new) (mime new))
    by assumption.
  rewrite alarms_unchanged. destruct new as [e m]. cbn [entropy mime].
  now rewrite insert_id.
Qed.

(** X10. Handling the same Modified event again, in the same world, is
    silent and changes nothing: once a Modified event has returned, a
    second one for the same path returns too, logs its INFO record only and
    leaves the dict as the first one left it. *)
Theorem on_modified_twice (w : World) (src_path : string) (s : State) :
  fst (on_modified w src_path s) = Ok tt ->
  on_modified w src_path (snd (on_modified w src_path s)) =
  (Ok tt,
   after (snd (on_modified w src_path s))
     (file_infos (snd (on_modified w src_path s)))
     [info (MsgModified src_path)]).
Proof.
  rewrite (on_modified_unfold w src_path s).
  set (s0 := after s (file_infos s) [info (MsgModified src_path)]).
  rewrite (update_info_cases w src_path s0).
  destruct (file_infos s0 !! src_path) as [old|] eqn:Hv.
  - destruct (os_path_exists w src_path) eqn:Hex.
    + destruct (file_entropy w src_path) as [new_entropy|] eqn:He;
        [|discriminate].
      destruct (__get_mime w src_path) as [new_mime|] eqn:Hm; [|discriminate].
      intros _. cbn [snd]. rewrite on_modified_unfold.
      rewrite (update_info_fresh w src_path _
                 {| entropy := new_entropy; mime := new_mime |}).
      * now rewrite after_after.
      * cbn [after file_infos]. apply lookup_insert_eq.
      * repeat split; assumption.
    + intros _. cbn [snd]. apply on_modified_untracked.
      cbn [after file_infos]. apply lookup_delete_eq.
  - intros _. cbn [snd]. now apply on_modified_untracked.
Qed.

Lemma on_modified_twice_witness :
  on_modified text_world "/d/f" (snd (on_modified text_world "/d/f" text_state)) =
  (Ok tt,
   after (snd (on_modified text_world "/d/f" text_state))
     (file_infos (snd (on_modified text_world "/d/f" text_state)))
     [info (MsgModified "/d/f")]).
Proof.
  apply (on_modified_twice text_world "/d/f" text_state).
  now rewrite (on_modified_measured text_world "/d/f" text_state
                 {| entropy := 0; mime := "text/plain" |}
                 (measure_spec [xA; xB]) "text/plain" eq_refl eq_refl
                 (proj1 (file_entropy_holds _ _ _ text_world_holds)) eq_refl).
Defined.

(** ** Sequences of events *)

Lemma observe_cons w ev evs s :
  observe ((w, ev) :: evs) s =
  match dispatch w ev s with
  | (Ok _, s') => observe evs s'
  | (Raise e, s') => (Raise e, s')
  end.
Proof. reflexivity. Qed.

Lemma last_cons_default {A} (l : list A) : forall x d,
  List.last (x :: l) d = List.last l x.
Proof.
  induction l as [|y l IH]; intros x d; [reflexivity|].
  change (List.last (x :: y :: l) d) with (List.last (y :: l) d).
  rewrite !IH. reflexivity.
Qed.

Lemma creeping_step_silent filepath old new :
  entropy new - entropy old <= ENTROPY_LIMIT ->
  mime new = mime old ->
  entropy_alarm filepath (entropy old) (entropy new) ++
  mime_alarm filepath (mime old) (mime new) = [].
Proof.
  intros Hstep Hmime. unfold entropy_alarm, mime_alarm.
  destruct (Rgt_dec (entropy new - entropy old) ENTROPY_LIMIT) as [Hgt|_];
    [lra|].
  destruct (decide (mime new = mime old)); [reflexivity|contradiction].
Qed.

(** X11. The alarm is relative to the last baseline, so growth in small
    steps is never reported: over any sequence of Modified events in which
    the file keeps its type and each measurement exceeds the previous one
    by at most 0.01, every handler returns, nothing but INFO records is
    logged, and the dict ends with the last measurement, however far it is
    from the first baseline. *)
Theorem creeping_is_silent (filepath : string)
  (steps : list (World * FileInfo)) (s : State) (old : FileInfo) :
  file_infos s !! filepath = Some old ->
  creeping filepath old steps ->
  observe (map (fun step => (fst step, FileModified filepath)) steps) s =
  (Ok tt,
   after s
     (<[filepath := List.last (map snd steps) old]> (file_infos s))
     (map (fun _ => info (MsgModified filepath)) steps)).
Proof.
  revert s old. induction steps as [|[w new] steps IH]; intros s old Hv Hcreep.
  - cbn [map observe List.last]. rewrite insert_id by assumption.
    destruct s. unfold ret, after. cbn. now rewrite app_nil_r.
  - destruct Hcreep as ((Hex & He & Hm) & Hstep & Hmime & Hrest).
    cbn [map fst snd]. rewrite observe_cons. cbn [dispatch].
    rewrite (on_modified_measured w filepath s old (entropy new) (mime new))
      by assumption.
    rewrite (creeping_step_silent filepath old new Hstep Hmime).
    assert (Hnew : {| entropy := entropy new; mime := mime new |} = new)
      by now destruct new.
    rewrite Hnew.
    rewrite (IH _ new); [|cbn [after file_infos]; apply lookup_insert_eq
                         |assumption].
    rewrite after_after. cbn [after file_infos].
    rewrite insert_insert_eq. cbn [map snd].
    now rewrite last_cons_default.
Qed.

Lemma text_world_measures :
  measures text_world "/d/f"
    {| entropy := measure_spec [xA; xB]; mime := "text/plain" |}.
Proof.
  split; [reflexivity|]. split; [|reflexivity].
  exact (proj1 (file_entropy_holds _ _ _ text_world_holds)).
Qed.

Lemma creeping_is_silent_witness :
  observe [(text_world, FileModified "/d/f"); (text_world, FileModified "/d/f")]
    fresh_state =
  (Ok tt,
   after fresh_state
     (<["/d/f" := {| entropy := measure_spec [xA; xB]; mime := "text/plain" |}]>
        (file_infos fresh_state))
     [info (MsgModified "/d/f"); info (MsgModified "/d/f")]).
Proof.
  apply (creeping_is_silent "/d/f"
           [(text_world, {| entropy := measure_spec [xA; xB];
                            mime := "text/plain" |});
            (text_world, {| entropy := measure_spec [xA; xB];
                            mime := "text/plain" |})]
           fresh_state
           {| entropy := measure_spec [xA; xB]; mime := "text/plain" |}).
  - reflexivity.
  - cbn [creeping entropy mime]. unfold ENTROPY_LIMIT.
    split; [exact text_world_measures|]. split; [lra|].
    split; [reflexivity|].
    split; [exact text_world_measures|]. split; [lra|].
    split; [reflexivity|exact I].
Defined.

(** X12. A rename and the rename back restore the dict: when a tracked file
    is moved to an untracked path and back, and is measured at its baseline
    both times, both handlers return, only the two INFO records are logged
    and the dict is what it was. *)
Theorem moved_back_restores (w1 w2 : World) (src_path dest_path : string)
  (s : State) (old : FileInfo) :
  file_infos s !! src_path = Some old ->
  file_infos s !! dest_path = None ->
  measures w1 dest_path old ->
  measures w2 src_path old ->
  observe [(w1, FileMoved src_path dest_path);
           (w2, FileMoved dest_path src_path)] s =
  (Ok tt,
   after s (file_infos s)
     [info (MsgMoved src_path dest_path); info (MsgMoved dest_path src_path)]).
Proof.
  intros Hsrc Hdest (Hex1 & He1 & Hm1) (Hex2 & He2 & Hm2).
  assert (Hne : src_path <> dest_path) by congruence.
  assert (Hold : {| entropy := entropy old; mime := mime old |} = old)
    by now destruct old.
  rewrite observe_cons. cbn [dispatch].
  rewrite (on_moved_measured w1 src_path dest_path s old
             (entropy old) (mime old)) by assumption.
  rewrite alarms_unchanged, Hold. cbv beta iota.
  rewrite observe_cons. cbn [dispatch observe].
  rewrite (on_moved_measured w2 dest_path src_path _ old
             (entropy old) (mime old));
    [|cbn [after file_infos]; apply lookup_insert_eq|congruence
     |assumption|assumption|assumption].
  rewrite alarms_unchanged, Hold, after_after. unfold ret.
  cbn [after file_infos]. f_equal. f_equal.
  rewrite delete_insert_eq.
  rewrite (delete_id (delete src_path (file_infos s)) dest_path)
    by (rewrite lookup_delete_ne by assumption; assumption).
  rewrite insert_delete_eq. now apply insert_id.
Qed.

Lemma moved_back_restores_witness :
  observe [(moved_world, FileMoved "/d/f" "/d/g");
           (text_world, FileMoved "/d/g" "/d/f")] fresh_state =
  (Ok tt,
   after fresh_state (file_infos fresh_state)
     [info (MsgMoved "/d/f" "/d/g"); info (MsgMoved "/d/g" "/d/f")]).
Proof.
  apply (moved_back_restores moved_world text_world "/d/f" "/d/g" fresh_state
           {| entropy := measure_spec [xA; xB]; mime := "text/plain" |}).
  - reflexivity.
  - reflexivity.
  - split; [reflexivity|]. split; [|reflexivity].
    apply (file_entropy_holds moved_world "/d/g" [xA; xB]). repeat split.
  - exact text_world_measures.
Defined.

(** ** The initial scan, further *)

Lemma for_in_raise {A S} (body : A -> S -> result S) l e : forall acc,
  for_in l body acc = Raise e ->
  exists a acc0, In a l /\ body a acc0 = Raise e.
Proof.
  induction l as [|x l IH]; intros acc Hrun; cbn in Hrun; [discriminate|].
  destruct (body x acc) as [acc1|e'] eqn:Hx; cbn [result_bind] in Hrun.
  - destruct (IH acc1 Hrun) as (a & acc0 & Hin & Ha).
    exists a, acc0. split; [now right|assumption].
  - injection Hrun as ->. exists x, acc. split; [now left|assumption].
Qed.

Lemma init_file_infos_sound w self infos filepath new :
  __init_file_infos w (monitoring_path self) (patterns self) = Ok infos ->
  infos !! filepath = Some new ->
  eligible w self filepath.
Proof.
  rewrite init_file_infos_unfold. intros Hrun. revert filepath new.
  refine (for_in_invariant
            (fun acc => forall filepath new,
               acc !! filepath = Some new -> eligible w self filepath)
            (scan_folder w (patterns self))
            (os_walk w (monitoring_path self)) _ ∅ infos _ Hrun).
  - intros [[root_path folders] files] x y Hwalk Hx. cbn [scan_folder].
    apply (for_in_invariant
             (fun acc => forall filepath new,
                acc !! filepath = Some new -> eligible w self filepath));
      [|exact Hx].
    intros pattern x1 y1 Hp Hx1. unfold scan_pattern.
    apply (for_in_invariant
             (fun acc => forall filepath new,
                acc !! filepath = Some new -> eligible w self filepath));
      [|exact Hx1].
    intros file x2 y2 Hf Hx2. unfold scan_file.
    destruct (probe w (os_path_join w root_path file)) as [i|]; [|discriminate].
    cbn [result_bind]. intros [= <-] filepath new Hl.
    destruct (decide (os_path_join w root_path file = filepath)) as [<-|Hne].
    + unfold fnmatch_filter in Hf. apply filter_In in Hf. destruct Hf.
      exists root_path, folders, files, pattern, file. auto.
    + rewrite lookup_insert_ne in Hl by assumption. now apply (Hx2 _ new).
  - intros filepath new Hl. now rewrite lookup_empty in Hl.
Qed.

(** X13. The dict of the scan tracks the files the walk yields under a
    matching pattern and nothing else: a path has an entry exactly when it
    is such a file, and the entry is its measurement. *)
Theorem init_file_infos_exact (w : World) (self : IronDome)
  (infos : gmap string FileInfo) :
  __init_file_infos w (monitoring_path self) (patterns self) = Ok infos ->
  forall filepath,
    (is_Some (infos !! filepath) <-> eligible w self filepath) /\
    (forall new, infos !! filepath = Some new -> probe w filepath = Ok new).
Proof.
  intros Hrun filepath. split; [split|].
  - intros [new Hnew]. now apply (init_file_infos_sound w self infos _ new).
  - intros Hel.
    destruct (init_file_infos_complete w self infos filepath Hrun Hel)
      as (new & Hnew & _). eauto.
  - intros new Hnew.
    assert (Hel : eligible w self filepath)
      by now apply (init_file_infos_sound w self infos _ new).
    destruct (init_file_infos_complete w self infos filepath Hrun Hel)
      as (new' & Hnew' & Hprobe). congruence.
Qed.

Lemma init_file_infos_exact_witness :
  (is_Some
     ((<["/d/f" := {| entropy := measure_spec [xA; xB];
                      mime := "text/plain" |}]> ∅ : gmap string FileInfo)
      !! "/d/f") <->
   eligible text_world text_dome "/d/f") /\
  (forall new,
     (<["/d/f" := {| entropy := measure_spec [xA; xB];
                     mime := "text/plain" |}]> ∅ : gmap string FileInfo)
     !! "/d/f" = Some new ->
     probe text_world "/d/f" = Ok new).
Proof.
  exact (init_file_infos_exact text_world text_dome _ text_scan "/d/f").
Defined.

(** X14. The scan is all or nothing: it returns when the measurement of
    every matching file of the walk returns, and when it raises, the
    exception is that of the measurement of one such file, which ends
    [__init__] of the handler before anything is watched. *)
Theorem init_file_infos_outcome (w : World) (self : IronDome) :
  ((forall filepath, eligible w self filepath ->
      exists new, probe w filepath = Ok new) ->
   exists infos,
     __init_file_infos w (monitoring_path self) (patterns self) = Ok infos) /\
  (forall e,
     __init_file_infos w (monitoring_path self) (patterns self) = Raise e ->
     (exists filepath, eligible w self filepath /\ probe w filepath = Raise e) /\
     run w self =
       ([ThreadStart cpu_thread; ThreadStart mem_thread; ThreadStart disk_thread;
         Makedirs (fst (os_path_split w LOG_FILEPATH));
         LoggingBasicConfig LOG_FILEPATH], Raise e)).
Proof.
  assert (Hraise : forall e,
    __init_file_infos w (monitoring_path self) (patterns self) = Raise e ->
    exists filepath, eligible w self filepath /\ probe w filepath = Raise e).
  { intros e. rewrite init_file_infos_unfold. intros Hrun.
    apply for_in_raise in Hrun.
    destruct Hrun as ([[root_path folders] files] & acc0 & Hwalk & Hfolder).
    cbn [scan_folder] in Hfolder. apply for_in_raise in Hfolder.
    destruct Hfolder as (pattern & acc1 & Hp & Hpattern).
    apply for_in_raise in Hpattern.
    destruct Hpattern as (file & acc2 & Hf & Hfile).
    unfold fnmatch_filter in Hf. apply filter_In in Hf. destruct Hf as [Hf Hm].
    exists (os_path_join w root_path file). split.
    - exists root_path, folders, files, pattern, file. auto.
    - unfold scan_file in Hfile.
      destruct (probe w (os_path_join w root_path file)); [discriminate|].
      cbn [result_bind] in Hfile. now injection Hfile as ->. }
  split.
  - intros Hall.
    destruct (__init_file_infos w (monitoring_path self) (patterns self))
      as [infos|e] eqn:Hscan; [eauto|].
    destruct (Hraise e eq_refl) as (filepath & Hel & Hp).
    destruct (Hall filepath Hel) as [new Hnew]. congruence.
  - intros e Hscan. split; [now apply Hraise|].
    unfold run. now rewrite Hscan.
Qed.

Lemma init_file_infos_outcome_witness :
  exists infos,
    __init_file_infos text_world (monitoring_path text_dome)
      (patterns text_dome) = Ok infos.
Proof.
  apply (init_file_infos_outcome text_world text_dome).
  intros filepath (root_path & folders & files & pattern & file &
                   Hwalk & Hp & Hf & _ & ->).
  destruct Hwalk as [[= <- <- <-]|[]]. destruct Hf as [<-|[]].
  exists {| entropy := measure_spec [xA; xB]; mime := "text/plain" |}.
  exact text_probe.
Defined.

(** X15. Started on a single file, the sentinel drops the extension filters
    and watches the parent directory with the file's name as the only
    pattern; the scan then tracks, in every directory of the walk below the
    parent, each file whose name matches that pattern, and not the given
    file alone. *)
Theorem single_file_route (w : World) (route : string)
  (extensions : list string) (interval : Z) (head name : string) :
  os_path_isfile w (os_path_abspath_expanduser w route) = true ->
  os_path_split w (os_path_abspath_expanduser w route) = (head, name) ->
  monitoring_path (IronDome_init w route extensions interval) = head /\
  patterns (IronDome_init w route extensions interval) = [name] /\
  forall infos,
    __init_file_infos w head [name] = Ok infos ->
    forall filepath,
      is_Some (infos !! filepath) <->
      exists root_path folders files file,
        In (root_path, folders, files) (os_walk w head) /\
        In file files /\
        fnmatch w file name = true /\
        filepath = os_path_join w root_path file.
Proof.
  intros Hfile Hsplit.
  assert (Hinit : IronDome_init w route extensions interval =
                  {| monitoring_path := head; patterns := [name];
                     interval := interval |}).
  { unfold IronDome_init. now rewrite Hfile, Hsplit. }
  rewrite Hinit. cbn [monitoring_path patterns].
  split; [reflexivity|]. split; [reflexivity|].
  intros infos Hscan filepath.
  set (self := {| monitoring_path := head; patterns := [name];
                  interval := interval |}).
  split.
  - intros [new Hnew].
    destruct (init_file_infos_sound w self infos filepath new Hscan Hnew)
      as (root_path & folders & files & pattern & file &
          Hwalk & [<-|[]] & Hf & Hm & ->).
    exists root_path, folders, files, file. auto.
  - intros (root_path & folders & files & file & Hwalk & Hf & Hm & ->).
    destruct (init_file_infos_complete w self infos
                (os_path_join w root_path file) Hscan) as (new & Hnew & _);
      [|eauto].
    exists root_path, folders, files, name, file.
    repeat split; try assumption. now left.
Qed.

Lemma single_file_route_witness :
  monitoring_path file_dome = "/d" /\
  patterns file_dome = ["f"] /\
  forall infos,
    __init_file_infos file_world "/d" ["f"] = Ok infos ->
    forall filepath,
      is_Some (infos !! filepath) <->
      exists root_path folders files file,
        In (root_path, folders, files) (os_walk file_world "/d") /\
        In file files /\
        fnmatch file_world file "f" = true /\
        filepath = os_path_join file_world root_path file.
Proof.
  apply (single_file_route file_world "/d/f" ["txt"] 1 "/d" "f");
    reflexivity.
Defined.

(** ** The entropy meter, further *)

(** X16. The chunked read loses nothing: after the loop the Counter has one
    entry per byte value that occurs, none repeated, the count of every
    byte value is its number of occurrences in the file, and the counts add
    up to the file's length, whatever the length is against the chunk
    size. *)
Theorem read_loop_counts (file : list byte) :
  read_loop file [] = counter_update [] file /\
  List.NoDup (counter_keys (read_loop file [])) /\
  (forall b, counter_get (read_loop file []) b = occurrences b file) /\
  (forall b, In b (counter_keys (read_loop file [])) <-> In b file) /\
  counter_total (read_loop file []) = length file.
Proof.
  rewrite read_loop_all. split; [reflexivity|].
  destruct (counter_update_wf file [] counter_wf_nil) as [Hnd Hpos].
  split; [exact Hnd|]. split; [|split].
  - intros b. now rewrite counter_update_get.
  - intros b. split.
    + intros Hin. unfold counter_keys in Hin. apply in_map_iff in Hin.
      destruct Hin as ([k n] & <- & Hkn). cbn [fst].
      destruct (counter_of_file_In file k n Hkn) as [Hn Hp].
      unfold occurrences in Hn.
      apply (count_occ_In Byte.byte_eq_dec). lia.
    + intros Hin. apply counter_of_file_key. unfold occurrences.
      now apply count_occ_In.
  - apply counter_of_file_total.
Qed.

Lemma entropy_of_counts_zero_size k n (c : Counter) :
  entropy_of_counts 0 ((k, n) :: c) = Raise ZeroDivisionError.
Proof. reflexivity. Qed.

Lemma counter_update_nonempty file x :
  exists k n c, counter_update [] (x :: file) = (k, n) :: c.
Proof.
  destruct (counter_update [] (x :: file)) as [|[k n] c] eqn:Hc; [|eauto].
  exfalso.
  assert (Hin : In x (counter_keys (counter_update [] (x :: file)))).
  { apply counter_of_file_key. unfold occurrences. cbn [count_occ].
    destruct (Byte.byte_eq_dec x x); [lia|contradiction]. }
  rewrite Hc in Hin. destruct Hin.
Qed.

(** X17. What [file_entropy] can raise: nothing when the path does not
    exist; otherwise the exception of [os.stat] or of reading the file, or
    ZeroDivisionError, which it raises exactly when [os.stat] reported size
    0 and the read then returned data. The logarithm never raises. *)
Theorem file_entropy_raises (w : World) (filepath : string) (e : exn) :
  file_entropy w filepath = Raise e <->
  os_path_exists w filepath = true /\
  (os_stat_st_size w filepath = Raise e \/
   exists file_size,
     os_stat_st_size w filepath = Ok file_size /\
     (open_rb w filepath = Raise e \/
      exists x file,
        open_rb w filepath = Ok (x :: file) /\
        file_size = O /\ e = ZeroDivisionError)).
Proof.
  unfold file_entropy.
  destruct (os_path_exists w filepath); cbn [negb].
  2:{ split; [discriminate|]. intros [H _]. discriminate. }
  destruct (os_stat_st_size w filepath) as [file_size|e1]; cbn [result_bind].
  2:{ split.
      - intros [= ->]. split; [reflexivity|]. now left.
      - intros [_ [[= ->]|(fs & Hfs & _)]]; [reflexivity|discriminate]. }
  destruct (open_rb w filepath) as [file|e2]; cbn [result_bind].
  2:{ split.
      - intros [= ->]. split; [reflexivity|]. right.
        exists file_size. split; [reflexivity|]. now left.
      - intros [_ [H|(fs & _ & [[= ->]|(x & file & H & _)])]];
          [discriminate|reflexivity|discriminate]. }
  rewrite read_loop_all. destruct file as [|x file].
  - cbn [counter_update fold_left]. rewrite entropy_of_counts_empty. split.
    + discriminate.
    + intros [_ [H|(fs & _ & [H|(x & file & H & _)])]]; discriminate.
  - destruct file_size as [|file_size'].
    + destruct (counter_update_nonempty file x) as (k & n & c & ->).
      rewrite entropy_of_counts_zero_size. split.
      * intros [= <-]. split; [reflexivity|]. right.
        exists O. split; [reflexivity|]. right. exists x, file. auto.
      * intros [_ [H|(fs & _ & [H|(x' & file' & _ & _ & ->)])]];
          [discriminate|discriminate|reflexivity].
    + destruct (counter_update_wf (x :: file) [] counter_wf_nil) as [_ Hpos].
      rewrite (entropy_of_counts_eval (S file_size') _ ltac:(lia) Hpos). split.
      * discriminate.
      * intros [_ [H|(fs & [= <-] & [H|(x' & file' & _ & Hz & _)])]];
          discriminate.
Qed.

Lemma file_entropy_raises_witness :
  file_entropy stale_world "/d/f" = Raise ZeroDivisionError.
Proof.
  apply (file_entropy_raises stale_world "/d/f" ZeroDivisionError).
  split; [reflexivity|]. right. exists O. split; [reflexivity|].
  right. exists xA, [xB]. repeat split.
Defined.

Lemma sum_nonpos {A} (g : A -> R) l :
  (forall a, In a l -> g a <= 0) -> fold_right Rplus 0 (map g l) <= 0.
Proof.
  induction l as [|x l IH]; intros Hg; cbn [map fold_right]; [lra|].
  pose proof (Hg x (or_introl eq_refl)).
  assert (fold_right Rplus 0 (map g l) <= 0)
    by (apply IH; intros a Ha; apply Hg; now right).
  lra.
Qed.

Lemma sum_nonpos_zero {A} (g : A -> R) l :
  (forall a, In a l -> g a <= 0) ->
  fold_right Rplus 0 (map g l) = 0 ->
  forall a, In a l -> g a = 0.
Proof.
  induction l as [|x l IH]; intros Hg Hsum a Hin; [destruct Hin|].
  cbn [map fold_right] in Hsum.
  pose proof (Hg x (or_introl eq_refl)) as Hx.
  assert (Hrest : fold_right Rplus 0 (map g l) <= 0)
    by (apply sum_nonpos; intros b Hb; apply Hg; now right).
  destruct Hin as [<-|Hin]; [lra|].
  apply IH; try assumption; [|lra]. intros b Hb. apply Hg. now right.
Qed.

Lemma proportion_range file b :
  (0 < occurrences b file)%nat ->
  0 < INR (occurrences b file) / INR (length file) <= 1.
Proof.
  intros Hocc.
  pose proof (count_occ_bound Byte.byte_eq_dec b file) as Hle.
  fold (occurrences b file) in Hle.
  assert (HN : 0 < INR (length file)) by (apply lt_0_INR; lia).
  split; [apply proportion_pos; lia|].
  apply (Rmult_le_reg_r (INR (length file))); [assumption|].
  replace (INR (occurrences b file) / INR (length file) * INR (length file))
    with (INR (occurrences b file)) by (field; lra).
  rewrite Rmult_1_l. now apply le_INR.
Qed.

Lemma shannon_term_nonpos file b : shannon_term file b <= 0.
Proof.
  unfold shannon_term. destruct (occurrences b file) as [|n] eqn:Hocc; [lra|].
  rewrite <- Hocc.
  destruct (proportion_range file b ltac:(lia)) as [Hp0 Hp1].
  pose proof (ln_nonpos _ (conj Hp0 Hp1)) as Hln.
  pose proof ln_2_pos as H2. unfold log2.
  assert (Hq : ln (INR (occurrences b file) / INR (length file)) / ln 2 <= 0).
  { apply Rmult_le_reg_r with (ln 2); [assumption|].
    unfold Rdiv. rewrite Rmult_assoc, Rinv_l by lra. lra. }
  nra.
Qed.

Lemma shannon_term_zero file b :
  (0 < occurrences b file)%nat ->
  shannon_term file b = 0 ->
  occurrences b file = length file.
Proof.
  intros Hocc Hzero. unfold shannon_term in Hzero.
  destruct (occurrences b file) as [|n] eqn:Hn; [lia|]. rewrite <- Hn in *.
  destruct (proportion_range file b Hocc) as [Hp0 Hp1].
  pose proof ln_2_pos as H2. unfold log2 in Hzero.
  set (p := INR (occurrences b file) / INR (length file)) in *.
  assert (Hln : ln p = 0).
  { assert (Hq : ln p / ln 2 = 0) by nra.
    unfold Rdiv in Hq. apply Rmult_integral in Hq.
    destruct Hq as [Hq|Hq]; [assumption|].
    pose proof (Rinv_0_lt_compat _ H2). lra. }
  assert (Hp : p = 1) by (apply ln_inv; [assumption|lra|now rewrite ln_1]).
  assert (HN : 0 < INR (length file)).
  { apply lt_0_INR.
    pose proof (count_occ_bound Byte.byte_eq_dec b file) as Hle.
    fold (occurrences b file) in Hle. lia. }
  apply INR_eq. unfold p in Hp.
  apply (Rmult_eq_compat_r (INR (length file))) in Hp.
  replace (INR (occurrences b file) / INR (length file) * INR (length file))
    with (INR (occurrences b file)) in Hp by (field; lra).
  lra.
Qed.

(** X18. A score of 0 means a constant file and nothing else: on a file
    that exists and can be read, [file_entropy] returns 0 if and only if
    the file is empty or all its bytes are the same value. *)
Theorem file_entropy_zero_iff (w : World) (filepath : string)
  (file : list byte) :
  holds w filepath file ->
  (file_entropy w filepath = Ok 0 <->
   forall x y, In x file -> In y file -> x = y).
Proof.
  intros H. destruct (file_entropy_holds _ _ _ H) as [Heq _]. rewrite Heq.
  split.
  - intros [= Hzero] x y Hx Hy.
    assert (Hsum : fold_right Rplus 0 (map (shannon_term file) all_bytes) = 0).
    { unfold measure_spec, shannon in Hzero. lra. }
    assert (Hall : forall b, In b file -> file = repeat b (length file)).
    { intros b Hb. apply (count_occ_unique Byte.byte_eq_dec).
      apply shannon_term_zero.
      - unfold occurrences. now apply count_occ_In.
      - apply (sum_nonpos_zero (shannon_term file) all_bytes);
          [intros a _; apply shannon_term_nonpos|assumption
          |apply all_bytes_complete]. }
    rewrite (Hall x Hx) in Hy. now apply repeat_spec in Hy.
  - intros Hconst. f_equal. destruct file as [|b file].
    + apply measure_spec_nil.
    + apply (measure_spec_same b); [discriminate|].
      intros x Hx. apply Hconst; [assumption|now left].
Qed.

Lemma file_entropy_zero_iff_witness :
  file_entropy extremes_world "/d/same" = Ok 0 <->
  forall x y, In x [xA; xA; xA] -> In y [xA; xA; xA] -> x = y.
Proof.
  apply (file_entropy_zero_iff extremes_world "/d/same" [xA; xA; xA]).
  repeat split.
Defined.

Lemma INR_list_sum {A} (f : A -> nat) l :
  INR (list_sum (map f l)) = fold_right Rplus 0 (map (fun a => INR (f a)) l).
Proof.
  unfold list_sum.
  induction l as [|x l IH]; cbn [map fold_right]; [reflexivity|].
  now rewrite plus_INR, IH.
Qed.

Lemma distinct_bytes_sum (g : byte -> R) (file : list byte) :
  (forall b, ~ In b file -> g b = 0) ->
  fold_right Rplus 0 (map g all_bytes) =
  fold_right Rplus 0 (map g (nodup Byte.byte_eq_dec file)).
Proof.
  intros Hzero. symmetry. apply sum_on_support.
  - apply NoDup_nodup.
  - exact all_bytes_NoDup.
  - intros b _. apply all_bytes_complete.
  - intros b _ Hb. apply Hzero. intros Hin. apply Hb. now apply nodup_In.
Qed.

(** X19. Equally frequent byte values give the logarithm of their number:
    on a readable, non-empty file in which every byte value that occurs
    occurs the same number of times, the score is log2 n / 8 for the n
    distinct values (0 for one value, 1/8 for two, 1 for all 256). *)
Theorem file_entropy_uniform (w : World) (filepath : string)
  (file : list byte) (k : nat) :
  holds w filepath file ->
  file <> [] ->
  (forall b, In b file -> occurrences b file = k) ->
  file_entropy w filepath =
  Ok (log2 (INR (length (nodup Byte.byte_eq_dec file))) / 8).
Proof.
  intros H Hne Hocc. destruct (file_entropy_holds _ _ _ H) as [Heq _].
  rewrite Heq. f_equal. unfold measure_spec. f_equal.
  set (n := length (nodup Byte.byte_eq_dec file)).
  assert (Hk : (0 < k)%nat).
  { destruct file as [|x file]; [contradiction|].
    rewrite <- (Hocc x (or_introl eq_refl)). unfold occurrences.
    apply count_occ_In. now left. }
  assert (Hn : (0 < n)%nat).
  { unfold n. destruct file as [|x file]; [contradiction|].
    assert (Hin : In x (nodup Byte.byte_eq_dec (x :: file)))
      by (apply nodup_In; now left).
    destruct (nodup Byte.byte_eq_dec (x :: file)); [destruct Hin|cbn; lia]. }
  assert (Habsent : forall b, ~ In b file -> occurrences b file = O).
  { intros b Hb. unfold occurrences. now apply count_occ_not_In. }
  assert (HN : INR (length file) = INR n * INR k).
  { rewrite length_occurrences, INR_list_sum.
    rewrite (distinct_bytes_sum (fun b => INR (occurrences b file)) file).
    - rewrite (map_ext_in _ (fun _ => INR k)).
      + rewrite sum_const. reflexivity.
      + intros b Hb. apply nodup_In in Hb. now rewrite Hocc.
    - intros b Hb. now rewrite Habsent. }
  assert (HRk : 0 < INR k) by now apply lt_0_INR.
  assert (HRn : 0 < INR n) by now apply lt_0_INR.
  unfold shannon.
  rewrite (distinct_bytes_sum (shannon_term file) file).
  2:{ intros b Hb. apply shannon_term_absent. now apply Habsent. }
  rewrite (map_ext_in _ (fun _ => / INR n * log2 (/ INR n))).
  - rewrite sum_const. fold n. unfold log2.
    rewrite ln_Rinv by assumption. pose proof ln_2_pos. field. lra.
  - intros b Hb. apply nodup_In in Hb. unfold shannon_term.
    rewrite (Hocc b Hb). destruct k as [|k']; [lia|]. rewrite HN.
    replace (INR (S k') / (INR n * INR (S k'))) with (/ INR n)
      by (field; lra).
    reflexivity.
Qed.

Lemma file_entropy_uniform_witness :
  file_entropy text_world "/d/f" =
  Ok (log2 (INR (length (nodup Byte.byte_eq_dec [xA; xB]))) / 8).
Proof.
  apply (file_entropy_uniform text_world "/d/f" [xA; xB] 1%nat).
  - exact text_world_holds.
  - discriminate.
  - intros b [<-|[<-|[]]]; reflexivity.
Defined.

Lemma probe_measures w filepath new :
  measures w filepath new -> probe w filepath = Ok new.
Proof.
  intros (_ & He & Hm). rewrite probe_cases, He, Hm. now destruct new.
Qed.

(** X20. A rename compares with the baseline of the source, not with that
    of the path it lands on: when a temporary file already holds the new
    content at the time its Created event is handled, and the event handled
    next is the MovedTo event that renames it onto another path, where the
    same content is measured, both handlers return and log their two INFO
    records only, and that path ends with the new content's baseline
    whatever baseline it had before. *)
Theorem replace_by_rename_is_silent (w1 w2 : World) (tmp_path path : string)
  (s : State) (new : FileInfo) :
  tmp_path <> path ->
  measures w1 tmp_path new ->
  measures w2 path new ->
  observe [(w1, FileCreated tmp_path); (w2, FileMoved tmp_path path)] s =
  (Ok tt,
   after s (<[path := new]> (delete tmp_path (file_infos s)))
     [info (MsgCreated tmp_path); info (MsgMoved tmp_path path)]).
Proof.
  intros Hne Hm1 (Hex2 & He2 & Hg2).
  assert (Hnew : {| entropy := entropy new; mime := mime new |} = new)
    by now destruct new.
  rewrite observe_cons. cbn [dispatch].
  rewrite on_created_run, (probe_measures w1 tmp_path new Hm1).
  cbv beta iota. rewrite observe_cons. cbn [dispatch observe].
  rewrite (on_moved_measured w2 tmp_path path _ new (entropy new) (mime new));
    [|cbn [after file_infos]; apply lookup_insert_eq
     |assumption|assumption|assumption|assumption].
  rewrite alarms_unchanged, Hnew, after_after. unfold ret.
  cbn [after file_infos]. now rewrite delete_insert_eq.
Qed.

Lemma replace_by_rename_is_silent_witness :
  observe [(tmp_world, FileCreated "/d/tmp");
           (text_world, FileMoved "/d/tmp" "/d/f")] text_state =
  (Ok tt,
   after text_state
     (<["/d/f" := {| entropy := measure_spec [xA; xB]; mime := "text/plain" |}]>
        (delete "/d/tmp" (file_infos text_state)))
     [info (MsgCreated "/d/tmp"); info (MsgMoved "/d/tmp" "/d/f")]).
Proof.
  apply (replace_by_rename_is_silent tmp_world text_world "/d/tmp" "/d/f"
           text_state
           {| entropy := measure_spec [xA; xB]; mime := "text/plain" |}).
  - discriminate.
  - split; [reflexivity|]. split; [|reflexivity].
    apply (file_entropy_holds tmp_world "/d/tmp" [xA; xB]). repeat split.
  - exact text_world_measures.
Defined.
